(** * The Gemini-triggered polling engine (liminigent/gemini_polling.py)

    A shallow embedding of [GeminiPollingEngine]: the trigger detector and
    the content highlighter (two regular-expression calls), the downstream
    trigger handling, and the poll loop of [run] with its tracked-entry
    map, stable watermark, dedup set and backoff.

    Python strings are sequences of Unicode code points, so a [str] is a
    [list N].  Dictionaries and sets are stdpp's [gmap] and [gset].  The
    outside world (clock, HTTP feed, the gemini command, the notification
    endpoint, the transcript file) is an oracle that answers once per poll
    cycle; the calls the engine makes are recorded as a trace of events. *)

From Stdlib Require Import ZArith NArith String Ascii List Bool Lia.
From stdpp Require Import gmap strings list fin_maps pretty.
From Equations Require Import Equations.

(** ** Python strings *)

Abbreviation pystr := (list N).

Definition pystr_of (s : string) : pystr :=
  N_of_ascii <$> list_ascii_of_string s.

(** [a < b] on [str]: lexicographic on code points. *)
Fixpoint str_ltb (a b : pystr) : bool :=
  match a, b with
  | _, [] => false
  | [], _ :: _ => true
  | x :: a', y :: b' => (x <? y)%N || ((x =? y)%N && str_ltb a' b')
  end.

(** ** The Unicode character database

    [re] classifies and case-folds code points with CPython's Unicode
    tables.  The ASCII range is written out below; above U+007F the
    tables are not part of the repository and are taken as a parameter.
    The one fact used about them: a code point whose lowercase is an
    ASCII letter or the dotless i is itself a letter. *)

Definition ascii_upper (c : N) : bool := (65 <=? c)%N && (c <=? 90)%N.
Definition ascii_lower (c : N) : bool := (97 <=? c)%N && (c <=? 122)%N.
Definition ascii_digit (c : N) : bool := (48 <=? c)%N && (c <=? 57)%N.

Record unicode_db := {
  db_isalnum : N -> bool;
  db_tolower : N -> N;
  db_isspace : N -> bool;
  db_letter : forall c, (128 <= c)%N ->
    ascii_lower (db_tolower c) = true \/ db_tolower c = 305%N ->
    db_isalnum c = true
}.

(** A small instance: above U+007F only the two Turkish letters
    U+0130 (lowercase [i]) and U+0131 are classified. *)
Definition small_db : unicode_db.
Proof.
  refine {| db_isalnum := fun c => (c =? 304)%N || (c =? 305)%N;
            db_tolower := fun c => if (c =? 304)%N then 105%N else c;
            db_isspace := fun c => (c =? 160)%N |}.
  intros c Hc H. destruct (N.eqb_spec c 304) as [->|Hne]; [reflexivity|].
  destruct H as [H|H].
  - unfold ascii_lower in H. apply andb_true_iff in H as [_ H].
    apply N.leb_le in H. lia.
  - subst c. reflexivity.
Defined.

Section Engine.
Context (U : unicode_db).

(** ** The regular expression [\bgemini\b] under [re.IGNORECASE] *)

(** [\w]: alphanumeric or underscore. *)
Definition is_word (c : N) : bool :=
  if (c <? 128)%N
  then ascii_digit c || ascii_upper c || ascii_lower c || (c =? 95)%N
  else db_isalnum U c.

Definition lower (c : N) : N :=
  if (c <? 128)%N then (if ascii_upper c then c + 32 else c)%N
  else db_tolower U c.

(** Lowercase letters that share an uppercase: of the letters of the
    keyword only [i] has a partner, the dotless i U+0131. *)
Definition ignorecase_fixes (lo : N) : list N :=
  if (lo =? 105)%N then [305%N] else [].

(** A literal of the pattern against one character of the subject. *)
Definition literal_ignore (lo c : N) : bool :=
  (lower c =? lo)%N || existsb (N.eqb (lower c)) (ignorecase_fixes lo).

Definition keyword : pystr := pystr_of "gemini".

(** The literals of the pattern against a prefix of [s]: the matched text
    (group 1) and what follows it. *)
Fixpoint match_literals (pat s : pystr) : option (pystr * pystr) :=
  match pat with
  | [] => Some ([], s)
  | lo :: pat' =>
      match s with
      | c :: s' =>
          if literal_ignore lo c
          then match match_literals pat' s' with
               | Some (m, rest) => Some (c :: m, rest)
               | None => None
               end
          else None
      | [] => None
      end
  end.

Definition word_at (c : option N) : bool := from_option is_word false c.

(** [\b] between the character before and the character after a position;
    outside the string counts as a non-word character. *)
Definition at_boundary (prev next : option N) : bool :=
  xorb (word_at prev) (word_at next).

(** The whole pattern at the start of [s], [prev] being the character
    just before. *)
Definition match_at (prev : option N) (s : pystr) : option (pystr * pystr) :=
  if at_boundary prev (head s)
  then match match_literals keyword s with
       | Some (m, rest) =>
           if at_boundary (last m) (head rest) then Some (m, rest) else None
       | None => None
       end
  else None.

(** [re.search]: try every position from left to right. *)
Fixpoint re_search (prev : option N) (s : pystr) : bool :=
  match match_at prev s with
  | Some _ => true
  | None =>
      match s with
      | [] => false
      | c :: s' => re_search (Some c) s'
      end
  end.

(** [replace_match]: f"**{match.group(1)}**". *)
Definition replace_match (group1 : pystr) : pystr :=
  pystr_of "**" ++ group1 ++ pystr_of "**".

Definition inspect {A} (a : A) : {b : A | a = b} := exist _ a eq_refl.

(** [re.sub]: leftmost non-overlapping matches are replaced, everything
    else is copied. *)
Equations? re_sub (prev : option N) (s : pystr) : pystr by wf (length s) lt :=
  re_sub prev s with inspect (match_at prev s) := {
    | exist _ (Some (m, rest)) Hm => replace_match m ++ re_sub (last m) rest
    | exist _ None _ with s := {
        | [] => []
        | c :: s' => c :: re_sub (Some c) s' } }.
Proof.
  unfold match_at in Hm.
  destruct (at_boundary prev (head s)); [|discriminate].
  destruct (match_literals keyword s) as [[m' r']|] eqn:E; [|discriminate].
  destruct (at_boundary (last m') (head r')); [|discriminate].
  injection Hm as -> ->.
  assert (G : forall pat t m r, match_literals pat t = Some (m, r) ->
              length t = (length pat + length r)%nat).
  { clear. induction pat as [|lo pat IH]; intros t m r H; simpl in H.
    - injection H as _ ->. reflexivity.
    - destruct t as [|c t]; [discriminate|].
      destruct (literal_ignore lo c); [|discriminate].
      destruct (match_literals pat t) as [[m' r']|] eqn:E; [|discriminate].
      injection H as _ ->. simpl. f_equal. eauto. }
  apply G in E. rewrite E. simpl. lia.
Qed.

(** [detect_gemini_trigger]; [None] is Python's [None]. *)
Definition detect_gemini_trigger (text : option pystr) : bool :=
  match text with
  | None | Some [] => false
  | Some t => re_search None t
  end.

(** [highlight_gemini_content]: falsy content is returned as it is. *)
Definition highlight_gemini_content (content : option pystr) : option pystr :=
  match content with
  | None => None
  | Some [] => Some []
  | Some t => Some (re_sub None t)
  end.

(** ** Lifelog entries and tracked state *)

(** A field of a JSON object as [dict.get] sees it. *)
Inductive json_field := Missing | Null | Text (s : pystr).

(** [d.get(k) or default] *)
Definition get_or (f : json_field) (default : pystr) : pystr :=
  match f with
  | Text (c :: s) => c :: s
  | _ => default
  end.

(** [d.get(k, default)]: [None] when the key holds null. *)
Definition get_default (f : json_field) (default : pystr) : option pystr :=
  match f with
  | Missing => Some default
  | Null => None
  | Text s => Some s
  end.

(** The feed gives every entry an identifier and an end time (ISO-8601
    text, compared as strings); [markdown] and [title] may be missing. *)
Record lifelog := {
  lifelog_id : pystr;
  endTime : pystr;
  markdown : json_field;
  title : json_field
}.

(** A value of [last_lifelogs]: {"content", "endTime", "stable_count"}. *)
Record tracked := {
  content : pystr;
  tracked_endTime : pystr;
  stable_count : Z
}.

(** (lifelog, prev_content, processed_content, has_gemini_trigger) *)
Definition update : Type := lifelog * pystr * option pystr * bool.

(** ** Exceptions, events and the oracle *)

Inductive exn :=
| FileNotFoundError (msg : pystr)
| TimeoutExpired (msg : pystr)
| RequestException (msg : pystr)
| OtherException (msg : pystr).

(** [str(e)] *)
Definition exn_str (e : exn) : pystr :=
  match e with
  | FileNotFoundError m | TimeoutExpired m | RequestException m
  | OtherException m => m
  end.

(** What the engine does to the outside, in program order. *)
Inductive event :=
| Print (line : pystr)
| HttpGet (date start : option pystr)
| RunGemini (query : pystr)
| HttpPost (data title_header : pystr)
| ProcessGeminiTrigger (l : lifelog) (processed_content : option pystr)
| LogDifference (prev_content : pystr) (new_content : option pystr)
    (timestamp title date : pystr)
| Sleep (secs : Z).

Inductive completed_process :=
  Completed (returncode : Z) (stdout stderr : pystr).

(** The answers of the outside world during one poll cycle.  A request
    answers with its payload or with the exception that [requests] or
    [raise_for_status] raises.  [log_write] is what
    [transcript_manager.log_difference] does when the cycle calls it: it
    returns, or it raises (the folder cannot be made, the file cannot be
    written, the text cannot be encoded). *)
Record world := {
  today_est_date : pystr;
  http_get : exn + list lifelog;
  transcript_context : pystr;
  gemini_run : exn + completed_process;
  ntfy_post : option exn;
  ntfy_error_post : option exn;
  log_write : option exn
}.

(** Code that prints, calls out and may raise: the events so far and
    either the exception or the result. *)
Definition io (A : Type) : Type := list event * (exn + A).

#[local] Instance io_ret : MRet io := fun A a => ([], inr a).
#[local] Instance io_bind : MBind io := fun A B k m =>
  match m with
  | (t, inl e) => (t, inl e)
  | (t, inr a) => let '(t', r) := k a in (t ++ t', r)
  end.

Definition raise {A} (e : exn) : io A := ([], inl e).
Definition emit (ev : event) : io unit := ([ev], inr tt).
Definition print (line : pystr) : io unit := emit (Print line).

(** try: [body] except Exception as e: [handler e] *)
Definition try_except {A} (body : io A) (handler : exn -> io A) : io A :=
  match body with
  | (t, inl e) => let '(t', r) := handler e in (t ++ t', r)
  | (t, inr a) => (t, inr a)
  end.

Definition outcome {A} (r : exn + A) : io A :=
  match r with
  | inl e => raise e
  | inr a => mret a
  end.

Definition raised (r : option exn) : io unit :=
  match r with
  | Some e => raise e
  | None => mret tt
  end.

(** ** Text helpers *)

Definition py_isspace (c : N) : bool :=
  if (c <? 128)%N
  then ((9 <=? c)%N && (c <=? 13)%N) || ((28 <=? c)%N && (c <=? 32)%N)
  else db_isspace U c.

Fixpoint lstrip (s : pystr) : pystr :=
  match s with
  | c :: s' => if py_isspace c then lstrip s' else s
  | [] => []
  end.

(** [s.strip()] *)
Definition strip (s : pystr) : pystr :=
  reverse (lstrip (reverse (lstrip s))).

(** A value inside an f-string. *)
Definition fmt (v : option pystr) : pystr :=
  match v with
  | Some s => s
  | None => pystr_of "None"
  end.

Definition fmt_bool (b : bool) : pystr :=
  pystr_of (if b then "True" else "False").

Definition fmt_int (z : Z) : pystr := pystr_of (pretty z).

Definition nl : pystr := [10%N].
Definition robot : pystr := [129302%N].
Definition cross : pystr := [10060%N].
Definition tick : pystr := [9989%N].

(** ** Configuration ([__init__]) *)

Definition backoff_initial : Z := 5.
Definition backoff_max : Z := 300.
Definition stable_polls_required : Z := 3.
Definition default_title : pystr := pystr_of "Limitless Update".

(** ** Fetching *)

Definition truthy (s : option pystr) : option pystr :=
  match s with
  | Some (c :: r) => Some (c :: r)
  | _ => None
  end.

(** [fetch_lifelogs]: the feed answers newest first; the list is
    reversed. *)
Definition fetch_lifelogs (w : world) (date start : option pystr)
  : io (list lifelog) :=
  emit (HttpGet (truthy date) (truthy start));;
  lifelogs ← outcome (http_get w);
  mret (reverse lifelogs).

(** ** Downstream: the gemini command and the notification *)

Definition run_gemini_cli_query (w : world) (query : pystr)
  : io (option pystr) :=
  try_except
    (emit (RunGemini query);;
     result ← outcome (gemini_run w);
     let '(Completed returncode stdout stderr) := result in
     if (returncode =? 0)%Z then mret (Some (strip stdout))
     else print (cross ++ pystr_of " gemini-cli error: " ++ stderr);;
          mret None)
    (fun e =>
       match e with
       | TimeoutExpired _ =>
           print (cross ++ pystr_of " gemini-cli command timed out");;
           mret None
       | FileNotFoundError _ =>
           print (cross ++ pystr_of " gemini-cli not found. Please install with: npm i -g @google/gemini-cli");;
           mret None
       | _ =>
           print (cross ++ pystr_of " Error running gemini-cli: " ++ exn_str e);;
           mret None
       end).

Definition notification_message (trigger_title : option pystr)
    (response : pystr) : pystr :=
  robot ++ pystr_of " Gemini AI Analysis" ++ nl ++ nl
  ++ pystr_of "Trigger: " ++ fmt trigger_title ++ nl ++ nl
  ++ response ++ nl ++ nl ++ pystr_of "---" ++ nl
  ++ pystr_of "Generated by Gemini Polling Agent".

Definition send_agent_response_notification (w : world) (response : pystr)
    (trigger_title : option pystr) : io unit :=
  let message := notification_message trigger_title response in
  try_except
    (let message :=
       if (4000 <? Z.of_nat (length message))%Z
       then
         let max_response_len := (4000 - 200)%Z in
         let truncated_response :=
           take (Z.to_nat max_response_len) response ++ pystr_of "..." ++ nl
           ++ pystr_of "[Response truncated for mobile notification]" in
         notification_message trigger_title truncated_response
       else message in
     emit (HttpPost message (pystr_of "Gemini AI Agent Response"));;
     raised (ntfy_post w);;
     print ([128241%N] ++ pystr_of " gemini-cli response notification sent successfully"))
    (fun e =>
       print (cross ++ pystr_of " Failed to send gemini-cli response notification: "
              ++ exn_str e)).

Definition send_error_notification (w : world) (error_msg : pystr) : io unit :=
  let message := cross ++ pystr_of " Gemini Agent Error: " ++ error_msg in
  try_except
    (emit (HttpPost message (pystr_of "Gemini Agent Error"));;
     raised (ntfy_error_post w))
    (fun e => print (pystr_of "Failed to send error notification: " ++ exn_str e)).

Definition gemini_query (trigger_title : option pystr)
    (trigger_time : pystr) (trigger_content : option pystr)
    (context : pystr) : pystr :=
  pystr_of "TRANSCRIPT ANALYSIS REQUEST - RESPOND VERY BRIEFLY (MAX 500 WORDS)"
  ++ nl ++ nl ++ pystr_of "Current Trigger Entry:" ++ nl
  ++ pystr_of "Title: " ++ fmt trigger_title ++ nl
  ++ pystr_of "Time: " ++ trigger_time ++ nl
  ++ pystr_of "Content: " ++ fmt trigger_content ++ nl ++ nl
  ++ pystr_of "Full Context (Today's Transcript):" ++ nl
  ++ context ++ nl ++ nl
  ++ pystr_of "Please provide a VERY BRIEF analysis (max 500 words) addressing any questions or requests in the transcript, particularly focusing on the Gemini-related content. Keep responses short and actionable for mobile notifications.".

(** [process_gemini_trigger] *)
Definition process_gemini_trigger (w : world) (l : lifelog)
    (processed_content : option pystr) : io unit :=
  print ([128269%N] ++ pystr_of " Gemini trigger detected - gathering context for gemini-cli analysis...");;
  let context := transcript_context w in
  let trigger_content := processed_content in
  let trigger_title := get_default (title l) default_title in
  let trigger_time := endTime l in
  let query := gemini_query trigger_title trigger_time trigger_content context in
  try_except
    (print (robot ++ pystr_of " Sending context to gemini-cli for analysis...");;
     response ← run_gemini_cli_query w query;
     match response with
     | Some (c :: r) =>
         print (tick ++ pystr_of " gemini-cli analysis complete - sending notification...");;
         send_agent_response_notification w (c :: r) trigger_title
     | _ => print (cross ++ pystr_of " No response from gemini-cli")
     end)
    (fun e =>
       print (cross ++ pystr_of " Error processing Gemini trigger: " ++ exn_str e);;
       send_error_notification w (exn_str e)).

(** ** The poll loop ([run]) *)

(** [run]'s locals [last_lifelogs], [last_stable_end_time], [backoff], and
    the engine's [processed_gemini_triggers]. *)
Record engine_state := {
  last_lifelogs : gmap pystr tracked;
  last_stable_end_time : option pystr;
  backoff : Z;
  processed_gemini_triggers : gset pystr
}.

Definition initial_state : engine_state :=
  {| last_lifelogs := ∅; last_stable_end_time := None;
     backoff := backoff_initial; processed_gemini_triggers := ∅ |}.

(** The body of [for lifelog in lifelogs], on
    (last_lifelogs, most_recent_update, updated_ids). *)
Definition classify_step
    (acc : gmap pystr tracked * option update * gset pystr) (l : lifelog)
  : gmap pystr tracked * option update * gset pystr :=
  let '(last_lifelogs, most_recent_update, updated_ids) := acc in
  let raw_content := get_or (markdown l) [] in
  let end_time := endTime l in
  let processed_content := highlight_gemini_content (Some raw_content) in
  let has_gemini_trigger := detect_gemini_trigger (Some raw_content) in
  let fresh := {| content := raw_content; tracked_endTime := end_time;
                  stable_count := 1 |} in
  let '(last_lifelogs, most_recent_update) :=
    match last_lifelogs !! lifelog_id l with
    | None =>
        (<[lifelog_id l := fresh]> last_lifelogs,
         Some (l, [], processed_content, has_gemini_trigger))
    | Some prev =>
        if bool_decide (raw_content ≠ content prev)
           || bool_decide (end_time ≠ tracked_endTime prev)
        then
          (<[lifelog_id l := fresh]> last_lifelogs,
           match most_recent_update with
           | None => Some (l, content prev, processed_content, has_gemini_trigger)
           | Some (l0, _, _, _) =>
               if str_ltb (endTime l0) end_time
               then Some (l, content prev, processed_content, has_gemini_trigger)
               else most_recent_update
           end)
        else
          (<[lifelog_id l := {| content := content prev;
                                tracked_endTime := tracked_endTime prev;
                                stable_count := stable_count prev + 1 |}]>
             last_lifelogs,
           most_recent_update)
    end in
  (last_lifelogs, most_recent_update, {[lifelog_id l]} ∪ updated_ids).

Definition classify (lifelogs : list lifelog)
    (last_lifelogs : gmap pystr tracked)
  : gmap pystr tracked * option update * gset pystr :=
  foldl classify_step (last_lifelogs, None, ∅) lifelogs.

(** Clean up tracking for removed lifelogs. *)
Definition cleanup (last_lifelogs : gmap pystr tracked)
    (updated_ids : gset pystr) : gmap pystr tracked :=
  filter (fun kv => kv.1 ∈ updated_ids) last_lifelogs.

(** f"{lifelog_id}:{end_time}:{has_gemini_trigger}" *)
Definition trigger_id_of (lid end_time : pystr) (has_gemini_trigger : bool)
  : pystr :=
  lid ++ pystr_of ":" ++ end_time ++ pystr_of ":" ++ fmt_bool has_gemini_trigger.

(** The downstream trigger handling, as the loop calls it. *)
Definition handler : Type := world -> lifelog -> option pystr -> io unit.

(** The block under [if most_recent_update:].  It returns the events, the
    dedup set as it stands when the block is left, and how it was left:
    by an exception of the trigger handling, by an exception of the
    transcript write, or at its end. *)
Definition process_update (h : handler) (w : world) (date : pystr)
    (u : update) (processed : gset pystr)
  : list event * gset pystr * (exn + unit) :=
  let '(l, prev_content, processed_content, has_gemini_trigger) := u in
  let end_time := endTime l in
  let title := get_or (title l) default_title in
  let trigger_id := trigger_id_of (lifelog_id l) end_time has_gemini_trigger in
  let '(t, processed, r) :=
    if has_gemini_trigger && bool_decide (trigger_id ∉ processed)
    then
      let processed := {[trigger_id]} ∪ processed in
      let '(t, r) := h w l processed_content in
      (Print ([127919%N] ++ pystr_of " NEW Gemini trigger found in lifelog: " ++ title)
       :: ProcessGeminiTrigger l processed_content :: t,
       processed, r)
    else ([], processed, inr tt) in
  match r with
  | inl e => (t, processed, inl e)
  | inr _ =>
      let entry :=
        LogDifference prev_content processed_content end_time title date in
      match log_write w with
      | Some e => (t ++ [entry], processed, inl e)
      | None =>
          (t ++ [entry;
                 Print (pystr_of "Updated transcript for " ++ date
                        ++ pystr_of " - Gemini trigger: "
                        ++ pystr_of (if has_gemini_trigger
                                        && bool_decide (trigger_id ∉ processed)
                                     then "Yes (NEW)" else "No"))],
           processed, inr tt)
      end
  end.

(** The items of [last_lifelogs] that meet the threshold.  A dict lists
    its items in insertion order, [map_to_list] in key order; the end time
    of the maximum below is the same for every order. *)
Definition stable_lifelogs (last_lifelogs : gmap pystr tracked)
  : list (pystr * tracked) :=
  filter (fun kv => stable_polls_required ≤ stable_count kv.2)%Z
         (map_to_list last_lifelogs).

(** [max(items, key=...)] keeps the first item whose key is largest. *)
Fixpoint max_from (best : pystr * tracked) (items : list (pystr * tracked))
  : pystr * tracked :=
  match items with
  | [] => best
  | x :: items' =>
      if str_ltb (tracked_endTime best.2) (tracked_endTime x.2)
      then max_from x items'
      else max_from best items'
  end.

(** Update stable endTime tracking: the events and the new watermark. *)
Definition update_stable (last_lifelogs : gmap pystr tracked)
    (last_stable_end_time : option pystr) : list event * option pystr :=
  match stable_lifelogs last_lifelogs with
  | [] => ([], last_stable_end_time)
  | x :: items =>
      let latest_stable := max_from x items in
      let e := tracked_endTime latest_stable.2 in
      (if bool_decide (last_stable_end_time ≠ Some e)
       then [Print (pystr_of "Stable up to endTime: " ++ e)] else [],
       Some e)
  end.

(** The [try] block of one iteration: events, the state when the block is
    left, and whether it was left by an exception. *)
Definition try_body (h : handler) (w : world) (st : engine_state)
  : list event * engine_state * (exn + unit) :=
  let date := today_est_date w in
  let start := last_stable_end_time st in
  match fetch_lifelogs w (Some date) start with
  | (t0, inl e) => (t0, st, inl e)
  | (t0, inr lifelogs) =>
      let '(ll, most_recent_update, updated_ids) :=
        classify lifelogs (last_lifelogs st) in
      let ll := cleanup ll updated_ids in
      let '(t1, processed, r) :=
        match most_recent_update with
        | Some u => process_update h w date u (processed_gemini_triggers st)
        | None => ([], processed_gemini_triggers st, inr tt)
        end in
      match r with
      | inl e =>
          (t0 ++ t1,
           {| last_lifelogs := ll;
              last_stable_end_time := last_stable_end_time st;
              backoff := backoff st;
              processed_gemini_triggers := processed |},
           inl e)
      | inr _ =>
          let '(t2, stable) := update_stable ll (last_stable_end_time st) in
          (t0 ++ t1 ++ t2 ++ [Sleep (backoff st)],
           {| last_lifelogs := ll;
              last_stable_end_time := stable;
              backoff := backoff_initial;
              processed_gemini_triggers := processed |},
           inr tt)
      end
  end.

(** One iteration of [while True]: the [try] block and the [except]
    clause. *)
Definition poll_cycle (h : handler) (w : world) (st : engine_state)
  : list event * engine_state :=
  match try_body h w st with
  | (t, st', inr _) => (t, st')
  | (t, st', inl e) =>
      (t ++ [Print (cross ++ pystr_of " Polling error: " ++ exn_str e);
             Print ([9201%N; 65039%N] ++ pystr_of "  Retrying in "
                    ++ fmt_int (backoff st') ++ pystr_of " seconds...");
             Sleep (backoff st')],
       {| last_lifelogs := last_lifelogs st';
          last_stable_end_time := last_stable_end_time st';
          backoff := Z.min (backoff st' * 2) backoff_max;
          processed_gemini_triggers := processed_gemini_triggers st' |})
  end.

(** The loop never ends by itself; a run is observed over the cycles the
    world has answered so far. *)
Fixpoint run_cycles (h : handler) (ws : list world) (st : engine_state)
  : list event * engine_state :=
  match ws with
  | [] => ([], st)
  | w :: ws' =>
      let '(t, st') := poll_cycle h w st in
      let '(t', st'') := run_cycles h ws' st' in
      (t ++ t', st'')
  end.

(** [run], as the program has it. *)
Definition run (ws : list world) (st : engine_state)
  : list event * engine_state :=
  run_cycles process_gemini_trigger ws st.

(** ** Further functions of the engine *)

Definition max_context_chars : Z := 96000.

(** What [get_current_transcript_context] finds at the transcript path:
    no file, a file whose reading raises, or the text read. *)
Inductive transcript_file :=
| NoFile
| Unreadable (e : exn)
| Contents (full_content : pystr).

(** [s.find(c)]: the index of the first [c], -1 without one. *)
Fixpoint find_char (c : N) (s : pystr) : Z :=
  match s with
  | [] => -1
  | x :: s' =>
      if (x =? c)%N then 0
      else let i := find_char c s' in
           if (i <? 0)%Z then -1 else i + 1
  end.

(** [get_current_transcript_context], for today's date [date_str] (the
    text of [strftime('%Y-%m-%d')]). *)
Definition get_current_transcript_context (date_str : pystr)
    (file : transcript_file) : pystr :=
  match file with
  | NoFile => pystr_of "No transcript found for " ++ date_str
  | Unreadable e => pystr_of "Error reading transcript: " ++ exn_str e
  | Contents full_content =>
      if (Z.of_nat (length full_content) <=? max_context_chars)%Z
      then full_content
      else
        let safe_limit := (max_context_chars - 100)%Z in
        let truncated :=
          drop (length full_content - Z.to_nat safe_limit) full_content in
        let first_newline := find_char 10 truncated in
        let truncated :=
          if (0 <? first_newline)%Z
          then drop (Z.to_nat (first_newline + 1)) truncated
          else truncated in
        pystr_of "[CONTEXT TRUNCATED - SHOWING MOST RECENT "
        ++ fmt_int (Z.of_nat (length truncated)) ++ pystr_of " CHARS]"
        ++ nl ++ nl ++ truncated
  end.

(** [check_gemini_cli_availability]; [probe] is what
    [subprocess.run(["gemini", "--help"], timeout=10)] does. *)
Definition check_gemini_cli_availability (probe : exn + completed_process)
  : io unit :=
  try_except
    (result ← outcome probe;
     let '(Completed returncode stdout stderr) := result in
     if (returncode =? 0)%Z
     then print (tick ++ pystr_of " gemini-cli is available")
     else print (cross ++ pystr_of " gemini-cli is not working properly");;
          print (pystr_of "Error: " ++ stderr))
    (fun e =>
       match e with
       | FileNotFoundError _ =>
           print (cross ++ pystr_of " gemini-cli not found. Please install it with: npm i -g @google/gemini-cli");;
           print (pystr_of "Or set GEMINI_API_KEY environment variable for headless operation")
       | TimeoutExpired _ =>
           print (cross ++ pystr_of " gemini-cli command timed out")
       | _ => print (cross ++ pystr_of " Error checking gemini-cli: " ++ exn_str e)
       end).

(** ** Vocabulary of the specification *)

(** Case-insensitive equality of a subject character with a letter of the
    keyword, as the specification reads "ignoring case". *)
Definition caseless_eq (k c : N) : Prop :=
  lower c = k \/ (k = 105%N /\ lower c = 305%N).

(** [t] contains the keyword as a whole word: an occurrence with no word
    character on either side. *)
Definition whole_word_occurrence (t : pystr) : Prop :=
  exists pre w post,
    t = pre ++ w ++ post /\ Forall2 caseless_eq keyword w /\
    word_at (last pre) = false /\ word_at (head post) = false.

(** An entry is a candidate update when the loop sees it as new or as
    changed against the map as it stands at the entry's turn. *)
Definition is_candidate (m : gmap pystr tracked) (l : lifelog) : bool :=
  match m !! lifelog_id l with
  | None => true
  | Some prev =>
      bool_decide (get_or (markdown l) [] ≠ content prev)
      || bool_decide (endTime l ≠ tracked_endTime prev)
  end.

(** The candidate updates of a cycle, in fetch order. *)
Fixpoint candidates (lifelogs : list lifelog)
    (acc : gmap pystr tracked * option update * gset pystr) : list lifelog :=
  match lifelogs with
  | [] => []
  | l :: ls =>
      (if is_candidate acc.1.1 l then [l] else [])
      ++ candidates ls (classify_step acc l)
  end.

(** The entry of the selected update, if any. *)
Definition selected (u : option update) : option lifelog :=
  match u with
  | Some (l, _, _, _) => Some l
  | None => None
  end.

(** The dedup key of an entry: (identifier, end-time, trigger-present). *)
Definition dedup_key : Type := pystr * pystr * bool.

Definition dedup_key_of (l : lifelog) : dedup_key :=
  (lifelog_id l, endTime l,
   detect_gemini_trigger (Some (get_or (markdown l) []))).

Definition key_id (k : dedup_key) : pystr := trigger_id_of k.1.1 k.1.2 k.2.

(** The keys for which a trace invokes the trigger handling. *)
Definition invoked_keys (t : list event) : list dedup_key :=
  omap (fun ev => match ev with
                  | ProcessGeminiTrigger l _ => Some (dedup_key_of l)
                  | _ => None
                  end) t.

(** A handler that does not itself re-enter the trigger handling. *)
Definition quiet (h : handler) : Prop :=
  forall w l pc, invoked_keys (h w l pc).1 = [].

(** The sleeps of a trace, in order. *)
Definition sleeps (t : list event) : list Z :=
  omap (fun ev => match ev with Sleep s => Some s | _ => None end) t.

(** [e] is the largest end time among the tracked entries that meet the
    stability threshold. *)
Definition latest_stable_end_time (m : gmap pystr tracked) (e : pystr) : Prop :=
  (exists k v, m !! k = Some v /\ (stable_polls_required <= stable_count v)%Z
               /\ tracked_endTime v = e) /\
  (forall k v, m !! k = Some v -> (stable_polls_required <= stable_count v)%Z ->
               str_ltb e (tracked_endTime v) = false).

(** Some tracked entry meets the stability threshold. *)
Definition some_stable (m : gmap pystr tracked) : Prop :=
  exists k v, m !! k = Some v /\ (stable_polls_required <= stable_count v)%Z.



Definition with_last_lifelogs (st : engine_state) (m : gmap pystr tracked)
  : engine_state :=
  {| last_lifelogs := m;
     last_stable_end_time := last_stable_end_time st;
     backoff := backoff st;
     processed_gemini_triggers := processed_gemini_triggers st |}.

(** [m] ends without an exception. *)
Definition no_raise {A} (m : io A) : Prop := exists a, m.2 = inr a.

(** Every event of [m] satisfies [P]. *)
Definition emits {A} (P : event -> Prop) (m : io A) : Prop := Forall P m.1.

(** Neither a sleep nor a call of the trigger handling. *)
Definition downstream_event (ev : event) : Prop :=
  match ev with
  | Sleep _ | ProcessGeminiTrigger _ _ => False
  | _ => True
  end.

(** The flag and the highlighted text of an update are those of its
    entry. *)
Definition update_ok (u : option update) : Prop :=
  match u with
  | Some (l, _, pc, has) =>
      has = detect_gemini_trigger (Some (get_or (markdown l) [])) /\
      pc = highlight_gemini_content (Some (get_or (markdown l) []))
  | None => True
  end.

(** A trigger handling that always fails with a timeout. *)
Definition failing_handler : handler :=
  fun _ _ _ => raise (TimeoutExpired (pystr_of "gemini")).

(** The dedup set when the block under [if most_recent_update:] is
    left. *)
Definition recorded (u : option update) (processed : gset pystr)
  : gset pystr :=
  match u with
  | Some (l, _, _, has) =>
      if has && bool_decide
                  (trigger_id_of (lifelog_id l) (endTime l) has ∉ processed)
      then {[trigger_id_of (lifelog_id l) (endTime l) has]} ∪ processed
      else processed
  | None => processed
  end.

(** The state after a cycle that runs to its end on the feed [feed]. *)
Definition completed_state (feed : list lifelog) (st : engine_state)
  : engine_state :=
  let '(ll, most_recent_update, updated_ids) :=
    classify (reverse feed) (last_lifelogs st) in
  {| last_lifelogs := cleanup ll updated_ids;
     last_stable_end_time :=
       (update_stable (cleanup ll updated_ids) (last_stable_end_time st)).2;
     backoff := backoff_initial;
     processed_gemini_triggers :=
       recorded most_recent_update (processed_gemini_triggers st) |}.

(** The state after a cycle whose trigger handling or whose transcript
    write raised. *)
Definition interrupted_state (feed : list lifelog) (st : engine_state)
  : engine_state :=
  let '(ll, most_recent_update, updated_ids) :=
    classify (reverse feed) (last_lifelogs st) in
  {| last_lifelogs := cleanup ll updated_ids;
     last_stable_end_time := last_stable_end_time st;
     backoff := Z.min (backoff st * 2) backoff_max;
     processed_gemini_triggers :=
       recorded most_recent_update (processed_gemini_triggers st) |}.

(** The state after a cycle whose fetch failed. *)
Definition backed_off_state (st : engine_state) : engine_state :=
  {| last_lifelogs := last_lifelogs st;
     last_stable_end_time := last_stable_end_time st;
     backoff := Z.min (backoff st * 2) backoff_max;
     processed_gemini_triggers := processed_gemini_triggers st |}.

(** ** Further vocabulary *)

(** The messages a trace posts, with their Title header. *)
Definition posts (t : list event) : list (pystr * pystr) :=
  omap (fun ev => match ev with
                  | HttpPost data title_header => Some (data, title_header)
                  | _ => None
                  end) t.

(** The transcript entries a trace writes: (previous content, new
    content, timestamp). *)
Definition logged (t : list event) : list (pystr * option pystr * pystr) :=
  omap (fun ev => match ev with
                  | LogDifference prev new ts _ _ => Some (prev, new, ts)
                  | _ => None
                  end) t.

(** The record the loop stores for an entry, given the record it finds. *)
Definition next_record (old : option tracked) (l : lifelog) : tracked :=
  let raw := get_or (markdown l) [] in
  match old with
  | Some prev =>
      if bool_decide (raw ≠ content prev)
         || bool_decide (endTime l ≠ tracked_endTime prev)
      then {| content := raw; tracked_endTime := endTime l; stable_count := 1 |}
      else {| content := content prev; tracked_endTime := tracked_endTime prev;
              stable_count := stable_count prev + 1 |}
  | None => {| content := raw; tracked_endTime := endTime l; stable_count := 1 |}
  end.

(** Upper and lower case of the ASCII letters; other characters stay. *)
Definition ascii_toupper (c : N) : N :=
  if ascii_lower c then (c - 32)%N else c.

Definition ascii_tolower (c : N) : N :=
  if ascii_upper c then (c + 32)%N else c.

(** The status line of a cycle; [answer] is what it says of the trigger. *)
Definition status_line (date : pystr) (answer : string) : pystr :=
  pystr_of "Updated transcript for " ++ date
  ++ pystr_of " - Gemini trigger: " ++ pystr_of answer.

(** The gemini command answers: it exits with code 0 and its output is
    not white space only. *)
Definition answers (w : world) : bool :=
  match gemini_run w with
  | inr (Completed returncode stdout _) =>
      (returncode =? 0)%Z && negb (forallb py_isspace stdout)
  | inl _ => false
  end.

(** No white space at either end. *)
Definition trimmed (s : pystr) : Prop :=
  from_option py_isspace false (head s) = false /\
  from_option py_isspace false (last s) = false.

(** An event that is not a transcript entry. *)
Definition not_log (ev : event) : Prop :=
  match ev with
  | LogDifference _ _ _ _ _ => False
  | _ => True
  end.

(** The tracked entries after a cycle. *)
Definition tracked_after (w : world) (st : engine_state)
  : gmap pystr tracked :=
  match http_get w with
  | inl _ => last_lifelogs st
  | inr feed =>
      let '(ll, _, updated_ids) :=
        classify (reverse feed) (last_lifelogs st) in
      cleanup ll updated_ids
  end.

(** The record of an entry that has been fetched unchanged [n] times in a
    row. *)
Definition seen (l : lifelog) (n : Z) : tracked :=
  {| content := get_or (markdown l) []; tracked_endTime := endTime l;
     stable_count := n |}.




(** ** Sample data *)

Definition T1 : pystr := pystr_of "2025-01-01T10:00:00Z".
Definition T2 : pystr := pystr_of "2025-01-01T10:05:00Z".

Definition entry (i e c : string) : lifelog :=
  {| lifelog_id := pystr_of i; endTime := pystr_of e;
     markdown := Text (pystr_of c); title := Missing |}.


(** A world without the gemini command. *)
Definition quiet_world (feed : exn + list lifelog) : world :=
  {| today_est_date := pystr_of "2025-01-01";
     http_get := feed;
     transcript_context := pystr_of "No transcript found for 2025-01-01";
     gemini_run := inl (FileNotFoundError (pystr_of "gemini"));
     ntfy_post := None;
     ntfy_error_post := None;
     log_write := None |}.

(** A world without the gemini command in which the transcript cannot be
    written. *)
Definition failing_write_world (feed : exn + list lifelog) : world :=
  {| today_est_date := pystr_of "2025-01-01";
     http_get := feed;
     transcript_context := pystr_of "No transcript found for 2025-01-01";
     gemini_run := inl (FileNotFoundError (pystr_of "gemini"));
     ntfy_post := None;
     ntfy_error_post := None;
     log_write := Some (OtherException (pystr_of "surrogates not allowed")) |}.

(** * Properties *)

(** ** The order on strings *)

Lemma str_ltb_irrefl (a : pystr) : str_ltb a a = false.
Proof.
  induction a as [|x a IH]; simpl; [reflexivity|].
  rewrite N.ltb_irrefl, N.eqb_refl, IH. reflexivity.
Qed.

Lemma str_ltb_trans (a b c : pystr) :
  str_ltb a b = true -> str_ltb b c = true -> str_ltb a c = true.
Proof.
  revert b c. induction a as [|x a IH]; intros [|y b] [|z c]; simpl;
    try discriminate; try reflexivity.
  rewrite !orb_true_iff, !andb_true_iff, !N.ltb_lt, !N.eqb_eq.
  intros [H1|[H1 H1']] [H2|[H2 H2']]; try (left; lia).
  right. split; [lia|]. eapply IH; eassumption.
Qed.

Lemma str_ltb_total (a b : pystr) :
  str_ltb a b = false -> a = b \/ str_ltb b a = true.
Proof.
  revert b. induction a as [|x a IH]; intros [|y b]; simpl;
    try discriminate; auto.
  rewrite orb_false_iff, andb_false_iff, N.ltb_ge, N.eqb_neq.
  rewrite orb_true_iff, andb_true_iff, N.ltb_lt, N.eqb_eq.
  intros [H1 [H2|H2]]; [right; left; lia|].
  destruct (N.eq_dec x y) as [->|Hne]; [|right; left; lia].
  destruct (IH _ H2) as [->|H]; [left; reflexivity|right; right; auto].
Qed.

(** ** The regular expression *)

Lemma keyword_eq : keyword = [103; 101; 109; 105; 110; 105]%N.
Proof. reflexivity. Qed.

Lemma literal_ignore_caseless (lo c : N) :
  literal_ignore lo c = true <-> caseless_eq lo c.
Proof.
  unfold literal_ignore, caseless_eq, ignorecase_fixes.
  rewrite orb_true_iff, N.eqb_eq.
  destruct (N.eqb_spec lo 105) as [->|Hne]; simpl.
  - rewrite orb_false_r, N.eqb_eq. intuition.
  - intuition congruence.
Qed.

Lemma caseless_word (lo c : N) :
  lo ∈ keyword -> caseless_eq lo c -> is_word c = true.
Proof.
  intros Hlo Hc.
  assert (Hl : ascii_lower lo = true).
  { rewrite keyword_eq in Hlo. set_unfold.
    destruct Hlo as [->|[->|[->|[->|[->|[->|[]]]]]]]; reflexivity. }
  unfold is_word, caseless_eq, lower in *. revert Hc.
  destruct (N.ltb_spec c 128) as [Hlt|Hge]; intros Hc.
  - assert (Hul : ascii_upper c = true \/ ascii_lower c = true).
    { destruct (ascii_upper c) eqn:Eu; [left; reflexivity|right].
      destruct Hc as [Hc|[_ Hc]]; [congruence|lia]. }
    destruct Hul as [-> | ->]; rewrite ?orb_true_r; reflexivity.
  - apply db_letter; [assumption|].
    destruct Hc as [Hc|[_ Hc]]; [left; congruence|right; assumption].
Qed.

Lemma match_literals_spec (pat s m r : pystr) :
  match_literals pat s = Some (m, r) <->
  s = m ++ r /\ Forall2 caseless_eq pat m.
Proof.
  revert s m r. induction pat as [|lo pat IH]; intros s m r; simpl.
  - split.
    + intros [= <- <-]. split; [reflexivity|constructor].
    + intros [-> H]. inversion H. reflexivity.
  - destruct s as [|c s].
    + split; [discriminate|]. intros [H1 H2]. inversion H2; subst. discriminate.
    + destruct (literal_ignore lo c) eqn:El.
      * destruct (match_literals pat s) as [[m' r']|] eqn:E.
        -- apply IH in E as [-> HF]. split.
           ++ intros [= <- <-]. split; [reflexivity|].
              constructor; [apply literal_ignore_caseless|]; assumption.
           ++ intros [H1 H2]. inversion H2 as [|? c' ? m'' ? HF']; subst.
              simpl in H1. injection H1 as <- H1.
              assert (Hx : match_literals pat (m' ++ r') = Some (m'', r))
                by (apply IH; auto).
              assert (Hy : match_literals pat (m' ++ r') = Some (m', r'))
                by (apply IH; auto).
              congruence.
        -- split; [discriminate|]. intros [H1 H2].
           inversion H2 as [|? c' ? m'' ? HF']; subst.
           simpl in H1. injection H1 as <- H1.
           assert (Hx : match_literals pat s = Some (m'', r))
             by (apply IH; auto).
           congruence.
      * split; [discriminate|]. intros [H1 H2].
        inversion H2 as [|? c' ? m'' Hc HF']; subst.
        simpl in H1. injection H1 as <- H1.
        apply literal_ignore_caseless in Hc. congruence.
Qed.

(** A match of the keyword starts and ends with a word character. *)
Lemma keyword_match_ends (m : pystr) :
  Forall2 caseless_eq keyword m ->
  exists c m', m = c :: m' /\ is_word c = true /\ word_at (last m) = true.
Proof.
  rewrite keyword_eq. intros H.
  repeat match goal with
         | H : Forall2 _ (_ :: _) _ |- _ => inversion H; clear H; subst
         | H : Forall2 _ [] _ |- _ => inversion H; clear H; subst
         end.
  eexists _, _. split; [reflexivity|]. split.
  - eapply caseless_word; [|eassumption]. rewrite keyword_eq. set_solver.
  - simpl. eapply caseless_word; [|eassumption]. rewrite keyword_eq. set_solver.
Qed.

Lemma match_at_spec (prev : option N) (s m r : pystr) :
  match_at prev s = Some (m, r) <->
  s = m ++ r /\ Forall2 caseless_eq keyword m /\
  word_at prev = false /\ word_at (head r) = false.
Proof.
  unfold match_at, at_boundary. split.
  - destruct (xorb (word_at prev) (word_at (head s))) eqn:E1; [|discriminate].
    destruct (match_literals keyword s) as [[m' r']|] eqn:E; [|discriminate].
    destruct (xorb (word_at (last m')) (word_at (head r'))) eqn:E2;
      [|discriminate].
    intros [= <- <-]. apply match_literals_spec in E as [-> HF].
    destruct (keyword_match_ends _ HF) as (c & m'' & -> & Hc & Hl).
    rewrite Hl in E2. simpl in E1. rewrite Hc in E1.
    repeat split; auto.
    + destruct (word_at prev); [discriminate|reflexivity].
    + destruct (word_at (head r')); [discriminate|reflexivity].
  - intros (-> & HF & Hp & Hr).
    destruct (keyword_match_ends _ HF) as (c & m'' & -> & Hc & Hl).
    assert (E : match_literals keyword ((c :: m'') ++ r) = Some (c :: m'', r))
      by (apply match_literals_spec; auto).
    rewrite E. change (head ((c :: m'') ++ r)) with (Some c).
    rewrite Hp, Hl, Hr. simpl. rewrite Hc. reflexivity.
Qed.

Lemma re_search_spec (s : pystr) (prev : option N) :
  re_search prev s = true <->
  exists pre m r, s = pre ++ m ++ r /\ Forall2 caseless_eq keyword m /\
                  word_at (last (option_list prev ++ pre)) = false /\
                  word_at (head r) = false.
Proof.
  revert prev. induction s as [|c s IH]; intros prev; simpl.
  - destruct (match_at prev []) as [[m r]|] eqn:E.
    + apply match_at_spec in E as (E & HF & _).
      destruct (keyword_match_ends _ HF) as (? & ? & -> & _). discriminate.
    + split; [discriminate|]. intros (pre & m & r & E' & HF & _).
      destruct (keyword_match_ends _ HF) as (? & ? & -> & _).
      destruct pre; discriminate.
  - destruct (match_at prev (c :: s)) as [[m r]|] eqn:E.
    + split; [|reflexivity]. intros _.
      apply match_at_spec in E as (E & HF & Hp & Hr).
      exists [], m, r. rewrite app_nil_r. repeat split; auto.
      destruct prev; assumption.
    + rewrite IH. split.
      * intros (pre & m & r & -> & HF & Hp & Hr).
        exists (c :: pre), m, r. repeat split; auto.
        rewrite last_app. simpl in Hp. rewrite last_cons in *.
        destruct (last pre); assumption.
      * intros (pre & m & r & E' & HF & Hp & Hr).
        destruct pre as [|c' pre].
        -- simpl in E'. rewrite app_nil_r in Hp.
           assert (E2 : match_at prev (c :: s) = Some (m, r)).
           { apply match_at_spec. repeat split; auto.
             destruct prev; assumption. }
           congruence.
        -- simpl in E'. injection E' as <- ->.
           exists pre, m, r. repeat split; auto.
           rewrite last_app in Hp. simpl. rewrite last_cons in *.
           destruct (last pre); assumption.
Qed.

(** C8: [detect_gemini_trigger] is false on absent and on empty text, and on
    any other text it is true exactly when the text contains the keyword
    "gemini", compared without regard to case, with no word character
    directly before or after it; so "geminists unite" does not match and
    "Gemini said hi" does. *)
Theorem detect_gemini_trigger_whole_word :
  detect_gemini_trigger None = false /\
  detect_gemini_trigger (Some []) = false /\
  (forall t, detect_gemini_trigger (Some t) = true <-> whole_word_occurrence t) /\
  detect_gemini_trigger (Some (pystr_of "geminists unite")) = false /\
  detect_gemini_trigger (Some (pystr_of "Gemini said hi")) = true.
Proof.
  split; [reflexivity|]. split; [reflexivity|]. split.
  - intros t. unfold whole_word_occurrence.
    assert (E : detect_gemini_trigger (Some t) = re_search None t)
      by (destruct t; reflexivity).
    rewrite E, re_search_spec. reflexivity.
  - split; vm_compute; reflexivity.
Qed.

(** ** The highlighter *)

Lemma re_search_unfold (prev : option N) (s : pystr) :
  re_search prev s =
  match match_at prev s with
  | Some _ => true
  | None => match s with [] => false | c :: s' => re_search (Some c) s' end
  end.
Proof. destruct s; reflexivity. Qed.

(** Without a match [re.sub] returns the subject. *)
Lemma re_sub_no_match (s : pystr) (prev : option N) :
  re_search prev s = false -> re_sub prev s = s.
Proof.
  funelim (re_sub prev s); intros Hs.
  - rewrite re_search_unfold, Hm in Hs. discriminate.
  - reflexivity.
  - simpl in Hs.
    destruct (match_at prev (c :: s')); [discriminate|].
    f_equal. auto.
Qed.

(** Every replacement adds the four marker characters. *)
Lemma re_sub_length (s : pystr) (prev : option N) :
  length s <= length (re_sub prev s) /\
  (re_search prev s = true -> length s < length (re_sub prev s)).
Proof.
  funelim (re_sub prev s).
  - destruct (proj1 (match_at_spec _ _ _ _) Hm) as (E & _).
    unfold replace_match. rewrite E, !length_app. simpl. lia.
  - split; [lia|]. intros Hs. simpl in Hs.
    destruct (match_at prev []); discriminate.
  - simpl. split; [lia|]. intros Hs. simpl in Hs.
    destruct (match_at prev (c :: s')); [discriminate|].
    destruct H as [_ H]. specialize (H Hs). lia.
Qed.

(** A highlighted match is still a whole-word match: the markers are not
    word characters. *)
Lemma re_search_re_sub (s : pystr) (prev : option N) :
  re_search prev s = true -> re_search prev (re_sub prev s) = true.
Proof.
  funelim (re_sub prev s); intros Hs.
  - destruct (proj1 (match_at_spec _ _ _ _) Hm) as (_ & HF & _).
    apply re_search_spec.
    exists (pystr_of "**"), m, (pystr_of "**" ++ re_sub (last m) rest).
    unfold replace_match. rewrite <- !app_assoc.
    split; [reflexivity|]. split; [assumption|].
    rewrite last_app. split; reflexivity.
  - simpl in Hs.
    destruct (match_at prev []); discriminate.
  - simpl in Hs. rewrite re_search_unfold.
    destruct (match_at prev (c :: s')); [discriminate|].
    destruct (match_at prev (c :: re_sub (Some c) s')); auto.
Qed.

Lemma highlight_str (c : N) (t : pystr) :
  highlight_gemini_content (Some (c :: t)) = Some (re_sub None (c :: t)).
Proof. reflexivity. Qed.

(** C9 (amended): applying the highlighter to its own output gives the
    same text exactly when the text has no trigger; on a text with a
    trigger the second application wraps the keyword in markers again. *)
Theorem highlight_idempotent_iff_no_trigger (content : option pystr) :
  highlight_gemini_content (highlight_gemini_content content)
  = highlight_gemini_content content
  <-> detect_gemini_trigger content = false.
Proof.
  destruct content as [[|c t]|]; try (split; reflexivity).
  rewrite highlight_str. change (detect_gemini_trigger (Some (c :: t)))
    with (re_search None (c :: t)).
  destruct (re_search None (c :: t)) eqn:Hs.
  - split; [|discriminate]. intros E. exfalso.
    pose proof (re_sub_length (c :: t) None) as [Hl _].
    pose proof (re_search_re_sub (c :: t) None Hs) as Hs'.
    destruct (re_sub None (c :: t)) as [|c' t'] eqn:Es; [simpl in Hl; lia|].
    rewrite highlight_str in E. injection E as E.
    pose proof (re_sub_length (c' :: t') None) as [_ Hl'].
    specialize (Hl' Hs'). rewrite E in Hl'. lia.
  - split; [reflexivity|]. intros _.
    rewrite re_sub_no_match by assumption.
    rewrite highlight_str, re_sub_no_match by assumption. reflexivity.
Qed.

(** ** Exceptions and events of the downstream code *)

Lemma no_raise_ret {A} (a : A) : no_raise (mret a).
Proof. eexists. reflexivity. Qed.

Lemma no_raise_emit (ev : event) : no_raise (emit ev).
Proof. eexists. reflexivity. Qed.

Lemma no_raise_bind {A B} (m : io A) (k : A -> io B) :
  no_raise m -> (forall a, no_raise (k a)) -> no_raise (m ≫= k).
Proof.
  intros [a Ha] Hk. destruct m as [t [e|a']]; simpl in *; [discriminate|].
  specialize (Hk a'). destruct Hk as [b Hb].
  unfold mbind, io_bind. destruct (k a') as [t' r]. exists b. assumption.
Qed.

Lemma no_raise_try_except {A} (body : io A) (handler : exn -> io A) :
  (forall e, no_raise (handler e)) -> no_raise (try_except body handler).
Proof.
  intros Hh. destruct body as [t [e|a]]; simpl.
  - destruct (Hh e) as [a Ha]. destruct (handler e) as [t' r].
    exists a. assumption.
  - eexists. reflexivity.
Qed.

Lemma emits_ret {A} P (a : A) : emits P (mret a).
Proof. constructor. Qed.

Lemma emits_raise {A} P e : emits P (@raise A e).
Proof. constructor. Qed.

Lemma emits_emit P (ev : event) : P ev -> emits P (emit ev).
Proof. intros H. repeat constructor. assumption. Qed.

Lemma emits_bind {A B} P (m : io A) (k : A -> io B) :
  emits P m -> (forall a, emits P (k a)) -> emits P (m ≫= k).
Proof.
  unfold emits. intros Hm Hk. destruct m as [t [e|a]]; simpl in *; [assumption|].
  specialize (Hk a). unfold mbind, io_bind. destruct (k a) as [t' r].
  simpl in *. apply Forall_app. auto.
Qed.

Lemma emits_try_except {A} P (body : io A) (handler : exn -> io A) :
  emits P body -> (forall e, emits P (handler e)) ->
  emits P (try_except body handler).
Proof.
  unfold emits. intros Hm Hh. destruct body as [t [e|a]]; simpl in *; [|assumption].
  specialize (Hh e). destruct (handler e) as [t' r].
  simpl in *. apply Forall_app. auto.
Qed.

Ltac io_step :=
  first [ apply no_raise_try_except; intros
        | apply no_raise_bind; [|intros]
        | apply no_raise_ret
        | apply no_raise_emit
        | apply emits_try_except; [|intros]
        | apply emits_bind; [|intros]
        | apply emits_ret
        | apply emits_raise
        | apply emits_emit; exact I ].

Ltac io_cases :=
  repeat first
    [ io_step
    | match goal with
      | |- context [match ?x with _ => _ end] => destruct x
      end ].

Lemma run_gemini_cli_query_no_raise w q : no_raise (run_gemini_cli_query w q).
Proof.
  unfold run_gemini_cli_query, print. io_step.
  destruct e; repeat io_step.
Qed.

Lemma send_agent_response_notification_no_raise w r t :
  no_raise (send_agent_response_notification w r t).
Proof. unfold send_agent_response_notification, print. repeat io_step. Qed.

Lemma send_error_notification_no_raise w m :
  no_raise (send_error_notification w m).
Proof. unfold send_error_notification, print. repeat io_step. Qed.

(** Whatever the gemini command and the notification endpoint do,
    [process_gemini_trigger] returns. *)
Lemma process_gemini_trigger_no_raise w l pc :
  no_raise (process_gemini_trigger w l pc).
Proof.
  unfold process_gemini_trigger, print. repeat io_step.
Qed.

Lemma process_gemini_trigger_events w l pc :
  emits downstream_event (process_gemini_trigger w l pc).
Proof.
  unfold process_gemini_trigger, run_gemini_cli_query,
    send_agent_response_notification, send_error_notification, print,
    outcome, raised.
  io_cases.
Qed.


Ltac io_eval :=
  cbv [mbind io_bind mret io_ret try_except emit raise print outcome raised].









(** ** The state transitions of a cycle *)

Lemma fetch_lifelogs_ok w d s feed :
  http_get w = inr feed ->
  fetch_lifelogs w d s = ([HttpGet (truthy d) (truthy s)], inr (reverse feed)).
Proof. intros H. unfold fetch_lifelogs. rewrite H. reflexivity. Qed.

Lemma fetch_lifelogs_error w d s e :
  http_get w = inl e ->
  fetch_lifelogs w d s = ([HttpGet (truthy d) (truthy s)], inl e).
Proof. intros H. unfold fetch_lifelogs. rewrite H. reflexivity. Qed.

Lemma process_update_recorded h w date u processed :
  (process_update h w date u processed).1.2 = recorded (Some u) processed.
Proof.
  destruct u as [[[l p] pc] has]. unfold process_update, recorded.
  destruct (has && bool_decide _).
  - destruct (h w l pc) as [t [e|[]]]; [reflexivity|].
    destruct (log_write w); reflexivity.
  - destruct (log_write w); reflexivity.
Qed.

(** With a trigger handling that returns, the block is left as the
    transcript write is. *)
Lemma process_update_outcome h w date u processed :
  (forall w l pc, no_raise (h w l pc)) ->
  (process_update h w date u processed).2
  = match log_write w with Some e => inl e | None => inr tt end.
Proof.
  intros Hh. destruct u as [[[l p] pc] has]. unfold process_update.
  destruct (has && bool_decide _).
  - destruct (Hh w l pc) as [[] E].
    destruct (h w l pc) as [t r]. simpl in E. subst r.
    destruct (log_write w); reflexivity.
  - destruct (log_write w); reflexivity.
Qed.

Lemma process_update_returns h w date u processed :
  (forall w l pc, no_raise (h w l pc)) ->
  log_write w = None ->
  (process_update h w date u processed).2 = inr tt.
Proof.
  intros Hh Hw. rewrite process_update_outcome by assumption.
  rewrite Hw. reflexivity.
Qed.

(** A failed fetch changes the backoff and nothing else. *)
Lemma poll_cycle_fetch_error h w st e :
  http_get w = inl e ->
  (poll_cycle h w st).2 = backed_off_state st /\
  sleeps (poll_cycle h w st).1 = [backoff st] /\
  invoked_keys (poll_cycle h w st).1 = [].
Proof.
  intros H. unfold poll_cycle, try_body.
  rewrite (fetch_lifelogs_error _ _ _ _ H). repeat split.
Qed.

(** A cycle whose fetch succeeds and whose trigger handling returns: it
    runs to its end when no update is selected or the transcript write
    returns, and it is left through the [except] clause when the write of
    the selected update raises. *)
Lemma poll_cycle_after_fetch h w st feed :
  (forall w l pc, no_raise (h w l pc)) ->
  http_get w = inr feed ->
  (poll_cycle h w st).2
  = match (classify (reverse feed) (last_lifelogs st)).1.2, log_write w with
    | Some _, Some _ => interrupted_state feed st
    | _, _ => completed_state feed st
    end.
Proof.
  intros Hh H. unfold poll_cycle, try_body, completed_state, interrupted_state.
  rewrite (fetch_lifelogs_ok _ _ _ _ H).
  destruct (classify (reverse feed) (last_lifelogs st)) as [[ll mru] ids].
  cbn [fst snd].
  destruct mru as [u|].
  - pose proof (process_update_recorded h w (today_est_date w) u
                  (processed_gemini_triggers st)) as E1.
    pose proof (process_update_outcome h w (today_est_date w) u
                  (processed_gemini_triggers st) Hh) as E2.
    destruct (process_update h w (today_est_date w) u
                (processed_gemini_triggers st)) as [[t P] r].
    simpl in E1, E2. subst P r.
    destruct (log_write w) as [e|]; [reflexivity|].
    destruct (update_stable (cleanup ll ids) (last_stable_end_time st)).
    reflexivity.
  - destruct (update_stable (cleanup ll ids) (last_stable_end_time st)).
    destruct (log_write w); reflexivity.
Qed.





(** ** Classification *)

Lemma classify_step_shape m u ids l :
  exists v u',
    classify_step (m, u, ids) l
    = (<[lifelog_id l := v]> m, u', {[lifelog_id l]} ∪ ids).
Proof.
  unfold classify_step. destruct (m !! lifelog_id l) as [prev|].
  - destruct (bool_decide _ || bool_decide _); eauto.
  - eauto.
Qed.


Lemma classify_fold_cons acc l ls :
  foldl classify_step acc (l :: ls)
  = foldl classify_step (classify_step acc l) ls.
Proof. reflexivity. Qed.

Lemma classify_fold_ids ls : forall m u ids,
  (foldl classify_step (m, u, ids) ls).2
  = list_to_set (lifelog_id <$> ls) ∪ ids /\
  dom (foldl classify_step (m, u, ids) ls).1.1
  = list_to_set (lifelog_id <$> ls) ∪ dom m.
Proof.
  induction ls as [|l ls IH]; intros m u ids.
  - simpl. split; set_solver.
  - rewrite classify_fold_cons, fmap_cons.
    destruct (classify_step_shape m u ids l) as (v & u' & ->).
    destruct (IH (<[lifelog_id l := v]> m) u' ({[lifelog_id l]} ∪ ids))
      as [-> ->].
    rewrite dom_insert_L. split; set_solver.
Qed.

(** After the clean-up the tracked identifiers are those of the fetch. *)
Lemma cleanup_classify_dom ls m :
  dom (cleanup (classify ls m).1.1 (classify ls m).2)
  = list_to_set (lifelog_id <$> ls).
Proof.
  unfold classify, cleanup.
  destruct (classify_fold_ids ls m None ∅) as [E1 E2].
  apply dom_filter_L. intros k. rewrite E1. split.
  - intros Hk.
    assert (Hd : k ∈ dom (foldl classify_step (m, None, ∅) ls).1.1)
      by (rewrite E2; set_solver).
    apply elem_of_dom in Hd as [x Hx]. exists x. split; [assumption|].
    simpl. set_solver.
  - intros (x & _ & Hk). simpl in Hk. set_solver.
Qed.

(** A record that the fetch does not mention has no part in the
    classification. *)
Lemma classify_step_delete k m u ids l :
  lifelog_id l <> k ->
  classify_step (delete k m, u, ids) l
  = (delete k (classify_step (m, u, ids) l).1.1,
     (classify_step (m, u, ids) l).1.2,
     (classify_step (m, u, ids) l).2).
Proof.
  intros Hk. unfold classify_step.
  rewrite lookup_delete_ne by congruence.
  destruct (m !! lifelog_id l) as [prev|]; simpl.
  - destruct (bool_decide _ || bool_decide _); simpl;
      rewrite delete_insert_ne by congruence; reflexivity.
  - rewrite delete_insert_ne by congruence. reflexivity.
Qed.

Lemma classify_fold_delete k ls : forall m u ids,
  k ∉ lifelog_id <$> ls ->
  foldl classify_step (delete k m, u, ids) ls
  = (delete k (foldl classify_step (m, u, ids) ls).1.1,
     (foldl classify_step (m, u, ids) ls).1.2,
     (foldl classify_step (m, u, ids) ls).2).
Proof.
  induction ls as [|l ls IH]; intros m u ids Hk; [reflexivity|].
  rewrite fmap_cons, not_elem_of_cons in Hk. destruct Hk as [Hk1 Hk2].
  rewrite !classify_fold_cons.
  rewrite classify_step_delete by congruence.
  destruct (classify_step (m, u, ids) l) as [[m1 u1] ids1]. simpl.
  apply IH. assumption.
Qed.

Lemma cleanup_delete k m ids :
  k ∉ ids -> cleanup (delete k m) ids = cleanup m ids.
Proof.
  intros Hk. unfold cleanup. rewrite map_filter_delete.
  apply delete_id. apply map_lookup_filter_None. right.
  intros x _ Hx. simpl in Hx. contradiction.
Qed.

Lemma poll_cycle_forgets h w st k feed :
  http_get w = inr feed ->
  k ∉ lifelog_id <$> feed ->
  poll_cycle h w (with_last_lifelogs st (delete k (last_lifelogs st)))
  = poll_cycle h w st.
Proof.
  intros H Hk. unfold poll_cycle, try_body, with_last_lifelogs. simpl.
  rewrite (fetch_lifelogs_ok _ _ _ _ H). unfold classify.
  assert (Hk' : k ∉ lifelog_id <$> reverse feed).
  { rewrite fmap_reverse, elem_of_reverse. exact Hk. }
  rewrite (classify_fold_delete k (reverse feed) _ _ _ Hk').
  destruct (classify_fold_ids (reverse feed) (last_lifelogs st) None ∅) as [E _].
  destruct (foldl classify_step (last_lifelogs st, None, ∅) (reverse feed))
    as [[ll mru] ids]. simpl in *.
  rewrite cleanup_delete; [reflexivity|].
  rewrite E. set_solver.
Qed.

Lemma stable_lifelogs_elem m k v :
  (k, v) ∈ stable_lifelogs m <->
  m !! k = Some v /\ (stable_polls_required <= stable_count v)%Z.
Proof.
  unfold stable_lifelogs. rewrite list_elem_of_filter, elem_of_map_to_list.
  simpl. tauto.
Qed.

Lemma run_cycles_cons h w ws st :
  run_cycles h (w :: ws) st
  = ((poll_cycle h w st).1 ++ (run_cycles h ws (poll_cycle h w st).2).1,
     (run_cycles h ws (poll_cycle h w st).2).2).
Proof.
  cbn [run_cycles]. destruct (poll_cycle h w st) as [t st'].
  cbn [fst snd]. destruct (run_cycles h ws st') as [t' st'']. reflexivity.
Qed.

Lemma completed_state_tracked feed st :
  last_lifelogs (completed_state feed st)
  = cleanup (classify (reverse feed) (last_lifelogs st)).1.1
            (classify (reverse feed) (last_lifelogs st)).2.
Proof.
  unfold completed_state.
  destruct (classify (reverse feed) (last_lifelogs st)) as [[ll mru] ids].
  reflexivity.
Qed.

Lemma interrupted_state_tracked feed st :
  last_lifelogs (interrupted_state feed st)
  = cleanup (classify (reverse feed) (last_lifelogs st)).1.1
            (classify (reverse feed) (last_lifelogs st)).2.
Proof.
  unfold interrupted_state.
  destruct (classify (reverse feed) (last_lifelogs st)) as [[ll mru] ids].
  reflexivity.
Qed.

(** The tracked entries after a successful fetch are those of the
    classification, however the cycle is left. *)
Lemma poll_cycle_tracked_after_fetch h w st feed :
  (forall w l pc, no_raise (h w l pc)) ->
  http_get w = inr feed ->
  last_lifelogs (poll_cycle h w st).2
  = cleanup (classify (reverse feed) (last_lifelogs st)).1.1
            (classify (reverse feed) (last_lifelogs st)).2.
Proof.
  intros Hh H. rewrite (poll_cycle_after_fetch h w st feed Hh H).
  destruct (classify _ _).1.2; destruct (log_write w);
    auto using completed_state_tracked, interrupted_state_tracked.
Qed.

(** C5: after a cycle whose fetch succeeded the tracked-state map holds
    exactly the identifiers of the fetch result; an identifier that the
    fetch does not mention has no record left, is not among the stable
    entries from which the watermark is computed, and its old record has
    no influence on this cycle or on any later one: the run from the state
    without that record is the same run. *)
Theorem tracked_ids_are_fetched_ids (w : world) (st : engine_state)
    (feed : list lifelog) :
  http_get w = inr feed ->
  let st' := (poll_cycle process_gemini_trigger w st).2 in
  dom (last_lifelogs st') = list_to_set (lifelog_id <$> feed) /\
  (forall k, k ∉ lifelog_id <$> feed ->
     last_lifelogs st' !! k = None /\
     (forall v, (k, v) ∉ stable_lifelogs (last_lifelogs st')) /\
     (forall ws,
        run (w :: ws) (with_last_lifelogs st (delete k (last_lifelogs st)))
        = run (w :: ws) st)).
Proof.
  intros H st'.
  assert (Hdom : dom (last_lifelogs st') = list_to_set (lifelog_id <$> feed)).
  { subst st'.
    rewrite (poll_cycle_tracked_after_fetch _ _ _ feed
               process_gemini_trigger_no_raise H), cleanup_classify_dom.
    apply set_eq. intros k.
    rewrite !elem_of_list_to_set, fmap_reverse, elem_of_reverse.
    reflexivity. }
  split; [assumption|]. intros k Hk.
  assert (Hnone : last_lifelogs st' !! k = None).
  { apply not_elem_of_dom. rewrite Hdom, elem_of_list_to_set. assumption. }
  split; [assumption|]. split.
  - intros v Hv. apply stable_lifelogs_elem in Hv as [Hv _]. congruence.
  - intros ws. unfold run. rewrite !run_cycles_cons.
    rewrite (poll_cycle_forgets _ _ _ _ _ H Hk). reflexivity.
Qed.

(** ** The selected update *)

Lemma str_ltb_false_trans (a b c : pystr) :
  str_ltb a b = false -> str_ltb b c = false -> str_ltb a c = false.
Proof.
  intros Hab Hbc. destruct (str_ltb a c) eqn:Hac; [|reflexivity].
  destruct (str_ltb_total _ _ Hbc) as [->|Hcb]; [congruence|].
  rewrite (str_ltb_trans _ _ _ Hac Hcb) in Hab. discriminate.
Qed.










(** C1 (the code departs from it): two new entries in one fetch, the
    first ending later than the second.  Both are candidate updates; the
    loop selects the second, whose end time is the smaller one. *)
Theorem most_recent_update_not_latest :
  let a := entry "A" "2025-01-01T10:05:00Z" "first" in
  let b := entry "B" "2025-01-01T10:00:00Z" "second" in
  candidates [a; b] (∅, None, ∅) = [a; b] /\
  selected (classify [a; b] ∅).1.2 = Some b /\
  str_ltb (endTime b) (endTime a) = true.
Proof. vm_compute. repeat split. Qed.

(** ** The stable watermark *)

Lemma max_from_spec items : forall best,
  max_from best items ∈ best :: items /\
  forall x, x ∈ best :: items ->
    str_ltb (tracked_endTime (max_from best items).2) (tracked_endTime x.2)
    = false.
Proof.
  induction items as [|y items IH]; intros best; simpl.
  - split; [set_solver|]. intros x Hx.
    apply list_elem_of_singleton in Hx as ->. apply str_ltb_irrefl.
  - destruct (str_ltb (tracked_endTime best.2) (tracked_endTime y.2)) eqn:E.
    + destruct (IH y) as [IH1 IH2]. split; [set_solver|].
      intros x Hx. apply elem_of_cons in Hx as [->|Hx]; [|auto].
      pose proof (IH2 y ltac:(set_solver)) as Hy.
      destruct (str_ltb (tracked_endTime (max_from y items).2)
                  (tracked_endTime best.2)) eqn:Hb; [|reflexivity].
      rewrite (str_ltb_trans _ _ _ Hb E) in Hy. discriminate.
    + destruct (IH best) as [IH1 IH2]. split; [set_solver|].
      intros x Hx. rewrite !elem_of_cons in Hx.
      destruct Hx as [->|[->|Hx]]; [apply IH2; set_solver| |apply IH2; set_solver].
      eapply str_ltb_false_trans; [apply (IH2 best); set_solver|assumption].
Qed.

(** With a stable entry the watermark becomes the largest end time among
    the stable entries of the map it is computed from; without one it is
    left as it was. *)
Lemma update_stable_spec m old :
  (some_stable m ->
   exists e, (update_stable m old).2 = Some e /\ latest_stable_end_time m e) /\
  (~ some_stable m -> (update_stable m old).2 = old).
Proof.
  unfold update_stable, some_stable.
  destruct (stable_lifelogs m) as [|x items] eqn:E.
  - split; [|reflexivity]. intros (k & v & Hk & Hv).
    assert (Hin : (k, v) ∈ stable_lifelogs m)
      by (apply stable_lifelogs_elem; auto).
    rewrite E in Hin. set_solver.
  - destruct (max_from_spec items x) as [Hin Hmax]. rewrite <- E in Hin, Hmax.
    split.
    + intros _. eexists. split; [reflexivity|]. split.
      * destruct (max_from x items) as [k v].
        apply stable_lifelogs_elem in Hin as [Hk Hv]. eauto.
      * intros k v Hk Hv. apply (Hmax (k, v)).
        apply stable_lifelogs_elem. auto.
    + intros Hno. exfalso. apply Hno. destruct x as [k v].
      assert (Hx : (k, v) ∈ stable_lifelogs m) by (rewrite E; set_solver).
      apply stable_lifelogs_elem in Hx as [Hk Hv]. eauto.
Qed.

Lemma completed_state_watermark feed st :
  last_stable_end_time (completed_state feed st)
  = (update_stable (last_lifelogs (completed_state feed st))
       (last_stable_end_time st)).2.
Proof.
  unfold completed_state.
  destruct (classify (reverse feed) (last_lifelogs st)) as [[ll mru] ids].
  reflexivity.
Qed.

Lemma interrupted_state_watermark feed st :
  last_stable_end_time (interrupted_state feed st) = last_stable_end_time st.
Proof.
  unfold interrupted_state.
  destruct (classify (reverse feed) (last_lifelogs st)) as [[ll mru] ids].
  reflexivity.
Qed.


(** ** Traces of a cycle *)

Lemma downstream_events_silent (t : list event) :
  Forall downstream_event t -> sleeps t = [] /\ invoked_keys t = [].
Proof.
  induction 1 as [|ev t Hev _ [IH1 IH2]]; [split; reflexivity|].
  unfold sleeps, invoked_keys in *.
  destruct ev; try contradiction; (split; [exact IH1|exact IH2]).
Qed.

Lemma sleeps_app t1 t2 : sleeps (t1 ++ t2) = sleeps t1 ++ sleeps t2.
Proof. apply omap_app. Qed.

Lemma invoked_keys_app t1 t2 :
  invoked_keys (t1 ++ t2) = invoked_keys t1 ++ invoked_keys t2.
Proof. apply omap_app. Qed.

Lemma update_stable_trace m old :
  sleeps (update_stable m old).1 = [] /\
  invoked_keys (update_stable m old).1 = [].
Proof.
  unfold update_stable. destruct (stable_lifelogs m); [split; reflexivity|].
  simpl. destruct (bool_decide _); split; reflexivity.
Qed.







(** ** The dedup set *)

Lemma classify_step_update_ok m u ids l :
  update_ok u -> update_ok (classify_step (m, u, ids) l).1.2.
Proof.
  intros Hu. unfold classify_step.
  destruct (m !! lifelog_id l) as [prev|]; simpl.
  - destruct (bool_decide _ || bool_decide _); simpl; [|assumption].
    destruct u as [[[[l0 p0] pc0] h0]|]; simpl; [|auto].
    destruct (str_ltb (endTime l0) (endTime l)); simpl; auto.
  - auto.
Qed.

Lemma classify_update_ok ls m : update_ok (classify ls m).1.2.
Proof.
  unfold classify.
  assert (H : forall acc, update_ok acc.1.2 ->
                update_ok (foldl classify_step acc ls).1.2).
  { induction ls as [|l ls IH]; intros acc Hacc; [assumption|].
    rewrite classify_fold_cons. apply IH.
    destruct acc as [[m0 u0] ids0]. apply classify_step_update_ok.
    assumption. }
  apply H. exact I.
Qed.

Lemma recorded_grows u processed : processed ⊆ recorded u processed.
Proof.
  destruct u as [[[[l p] pc] has]|]; simpl; [|reflexivity].
  destruct (has && bool_decide _); set_solver.
Qed.

Lemma process_gemini_trigger_quiet : quiet process_gemini_trigger.
Proof.
  intros w l pc.
  apply (downstream_events_silent _ (process_gemini_trigger_events w l pc)).
Qed.

(** The trigger handling is called for the key of the update when the
    update holds a trigger whose identifier is not in the dedup set, and
    not at all otherwise. *)
Lemma process_update_invoked h w date l p pc has processed :
  quiet h ->
  invoked_keys (process_update h w date (l, p, pc, has) processed).1.1
  = if has && bool_decide
                (trigger_id_of (lifelog_id l) (endTime l) has ∉ processed)
    then [dedup_key_of l] else [].
Proof.
  intros Hq. unfold process_update.
  destruct (has && bool_decide _);
    [|destruct (log_write w); reflexivity].
  specialize (Hq w l pc).
  destruct (h w l pc) as [t [e|[]]]; cbn [fst snd] in *.
  - change (invoked_keys (_ :: ProcessGeminiTrigger l pc :: t))
      with (dedup_key_of l :: invoked_keys t).
    rewrite Hq. reflexivity.
  - destruct (log_write w); cbn [fst snd]; rewrite invoked_keys_app;
      change (invoked_keys (_ :: ProcessGeminiTrigger l pc :: t))
        with (dedup_key_of l :: invoked_keys t);
      rewrite Hq; reflexivity.
Qed.

(** The trigger handling is called for at most one key, a key that was
    not in the dedup set and is in it when the block is left. *)
Lemma process_update_keys h w date u processed :
  quiet h -> update_ok (Some u) ->
  let t := (process_update h w date u processed).1.1 in
  invoked_keys t = [] \/
  exists k, invoked_keys t = [k] /\ key_id k ∉ processed /\
            key_id k ∈ recorded (Some u) processed.
Proof.
  intros Hq Hu. destruct u as [[[l p] pc] has]. destruct Hu as [Hhas _].
  cbv zeta. rewrite process_update_invoked by assumption.
  unfold recorded.
  destruct (bool_decide
              (trigger_id_of (lifelog_id l) (endTime l) has ∉ processed))
    eqn:Hd; [|rewrite andb_false_r; left; reflexivity].
  destruct has; simpl andb; cbv iota; [|left; reflexivity].
  apply bool_decide_eq_true_1 in Hd.
  right. exists (dedup_key_of l).
  assert (Hid : key_id (dedup_key_of l)
                = trigger_id_of (lifelog_id l) (endTime l) true).
  { unfold key_id, dedup_key_of. cbn [fst snd]. rewrite <- Hhas. reflexivity. }
  rewrite Hid. split; [reflexivity|split; [assumption|set_solver]].
Qed.

(** The calls and the dedup set of one cycle, whatever the trigger
    handling does. *)
Lemma poll_cycle_keys h w st :
  quiet h ->
  processed_gemini_triggers st
  ⊆ processed_gemini_triggers (poll_cycle h w st).2 /\
  (invoked_keys (poll_cycle h w st).1 = [] \/
   exists k, invoked_keys (poll_cycle h w st).1 = [k] /\
             key_id k ∉ processed_gemini_triggers st /\
             key_id k ∈ processed_gemini_triggers (poll_cycle h w st).2).
Proof.
  intros Hq. destruct (http_get w) as [e|feed] eqn:E.
  - destruct (poll_cycle_fetch_error h w st e E) as (-> & _ & ->).
    split; [reflexivity|left; reflexivity].
  - unfold poll_cycle, try_body. rewrite (fetch_lifelogs_ok _ _ _ _ E).
    pose proof (classify_update_ok (reverse feed) (last_lifelogs st)) as Hok.
    destruct (classify (reverse feed) (last_lifelogs st)) as [[ll mru] ids].
    cbn [fst snd] in Hok.
    destruct (update_stable_trace (cleanup ll ids) (last_stable_end_time st))
      as [_ E3].
    destruct mru as [u|].
    + pose proof (process_update_recorded h w (today_est_date w) u
                    (processed_gemini_triggers st)) as E1.
      pose proof (process_update_keys h w (today_est_date w) u
                    (processed_gemini_triggers st) Hq Hok) as E2.
      pose proof (recorded_grows (Some u) (processed_gemini_triggers st))
        as Hsub.
      destruct (process_update h w (today_est_date w) u
                  (processed_gemini_triggers st)) as [[t P] r].
      cbn [fst snd] in E1, E2. subst P.
      destruct r as [e|[]].
      * cbn [fst snd processed_gemini_triggers].
        rewrite !invoked_keys_app.
        change (invoked_keys [HttpGet _ _]) with (@nil dedup_key).
        change (invoked_keys [Print _; Print _; Sleep _])
          with (@nil dedup_key).
        rewrite app_nil_r. simpl app. auto.
      * destruct (update_stable (cleanup ll ids) (last_stable_end_time st))
          as [t2 wm].
        cbn [fst snd processed_gemini_triggers] in *.
        rewrite !invoked_keys_app, E3.
        change (invoked_keys [HttpGet _ _]) with (@nil dedup_key).
        change (invoked_keys [Sleep _]) with (@nil dedup_key).
        rewrite !app_nil_r. simpl app. auto.
    + destruct (update_stable (cleanup ll ids) (last_stable_end_time st))
        as [t2 wm].
      cbn [fst snd processed_gemini_triggers] in *.
      split; [reflexivity|left].
      rewrite !invoked_keys_app, E3. reflexivity.
Qed.

(** Over any number of cycles: the dedup set only grows, every key that
    was handled is in it, no key that was in it at the start is handled,
    and no key is handled twice. *)
Lemma run_cycles_keys h ws : forall st,
  quiet h ->
  processed_gemini_triggers st
  ⊆ processed_gemini_triggers (run_cycles h ws st).2 /\
  NoDup (key_id <$> invoked_keys (run_cycles h ws st).1) /\
  (forall k, k ∈ invoked_keys (run_cycles h ws st).1 ->
     key_id k ∉ processed_gemini_triggers st /\
     key_id k ∈ processed_gemini_triggers (run_cycles h ws st).2).
Proof.
  induction ws as [|w ws IH]; intros st Hq.
  - simpl. split; [reflexivity|]. split; [constructor|]. set_solver.
  - rewrite run_cycles_cons. cbn [fst snd].
    destruct (poll_cycle_keys h w st Hq) as [Hsub Hk].
    destruct (IH (poll_cycle h w st).2 Hq) as (IHsub & IHnd & IHk).
    rewrite invoked_keys_app, fmap_app.
    split; [set_solver|]. split.
    + apply NoDup_app. split; [|split; [|assumption]].
      * destruct Hk as [->|(k & -> & _)]; [constructor|].
        apply NoDup_singleton.
      * intros x Hx1 Hx2.
        apply list_elem_of_fmap in Hx2 as (k2 & -> & Hk2).
        destruct (IHk k2 Hk2) as [Hnot _]. apply Hnot.
        destruct Hk as [E|(k & E & _ & Hin)]; rewrite E in Hx1;
          [set_solver|].
        apply list_elem_of_fmap in Hx1 as (k1 & Hk1 & Ek1).
        apply list_elem_of_singleton in Ek1 as ->. rewrite Hk1. exact Hin.
    + intros k Hin. apply elem_of_app in Hin as [Hin|Hin].
      * destruct Hk as [E|(k0 & E & Hnot & Hin0)]; rewrite E in Hin;
          [set_solver|].
        apply list_elem_of_singleton in Hin as ->. split; [assumption|].
        set_solver.
      * destruct (IHk k Hin) as [Hnot Hin']. split; [set_solver|assumption].
Qed.

(** C2: over any number of poll cycles, from any state, the trigger
    handling is invoked at most once for a dedup key (identifier, end
    time, trigger present); a key whose identifier is in the
    processed-triggers set is never handled again; the set only grows,
    and every handled key is in it. *)
Theorem trigger_handled_once_per_key (ws : list world) (st : engine_state) :
  NoDup (invoked_keys (run ws st).1) /\
  (forall k, key_id k ∈ processed_gemini_triggers st ->
             k ∉ invoked_keys (run ws st).1) /\
  processed_gemini_triggers st ⊆ processed_gemini_triggers (run ws st).2 /\
  (forall k, k ∈ invoked_keys (run ws st).1 ->
             key_id k ∈ processed_gemini_triggers (run ws st).2).
Proof.
  unfold run.
  destruct (run_cycles_keys process_gemini_trigger ws st
              process_gemini_trigger_quiet) as (Hsub & Hnd & Hk).
  split; [eapply NoDup_fmap_1; eassumption|].
  split; [|split; [assumption|]].
  - intros k Hin Hk'. destruct (Hk k Hk') as [Hnot _]. contradiction.
  - intros k Hin. apply (Hk k Hin).
Qed.

(** A cycle whose trigger handling raises is left through the [except]
    clause: the tracked entries are those of the fetch, the key is
    recorded, the watermark is not recomputed and the backoff doubles. *)
Lemma poll_cycle_interrupted h w st feed l p pc has e :
  http_get w = inr feed ->
  (classify (reverse feed) (last_lifelogs st)).1.2 = Some (l, p, pc, has) ->
  has && bool_decide (trigger_id_of (lifelog_id l) (endTime l) has
                        ∉ processed_gemini_triggers st) = true ->
  (h w l pc).2 = inl e ->
  (poll_cycle h w st).2 = interrupted_state feed st.
Proof.
  intros H Hu Hc He. unfold poll_cycle, try_body, interrupted_state.
  rewrite (fetch_lifelogs_ok _ _ _ _ H).
  destruct (classify (reverse feed) (last_lifelogs st)) as [[ll mru] ids].
  cbn [fst snd] in Hu. subst mru. unfold process_update, recorded.
  rewrite Hc. destruct (h w l pc) as [t r]. cbn [snd] in He. subst r.
  reflexivity.
Qed.

(** C10: whatever the trigger handling does once it is called (return,
    fail, time out, raise), the key of the call is in the
    processed-triggers set when the cycle ends, so it was recorded before
    the call; and no later cycle calls the trigger handling for that key
    again. *)
Theorem trigger_recorded_before_handling (h : handler) (w : world)
    (st : engine_state) (k : dedup_key) :
  quiet h ->
  k ∈ invoked_keys (poll_cycle h w st).1 ->
  key_id k ∈ processed_gemini_triggers (poll_cycle h w st).2 /\
  forall ws, k ∉ invoked_keys (run_cycles h ws (poll_cycle h w st).2).1.
Proof.
  intros Hq Hin.
  destruct (poll_cycle_keys h w st Hq) as [_ [E|(k0 & E & _ & Hrec)]];
    rewrite E in Hin; [set_solver|].
  apply list_elem_of_singleton in Hin as ->.
  split; [assumption|]. intros ws Hin.
  destruct (run_cycles_keys h ws (poll_cycle h w st).2 Hq) as (_ & _ & Hk).
  destruct (Hk k0 Hin) as [Hnot _]. contradiction.
Qed.

(** * Further properties *)

(** ** Detector and highlighter together *)

(** X1: the highlighter changes a text exactly when the detector finds a
    trigger in it. *)
Theorem highlight_changes_iff_trigger (content : option pystr) :
  highlight_gemini_content content = content
  <-> detect_gemini_trigger content = false.
Proof.
  destruct content as [[|c t]|]; try (split; reflexivity).
  rewrite highlight_str.
  change (detect_gemini_trigger (Some (c :: t))) with (re_search None (c :: t)).
  destruct (re_search None (c :: t)) eqn:Hs.
  - split; [|discriminate]. intros [= E].
    destruct (re_sub_length (c :: t) None) as [_ Hl]. specialize (Hl Hs).
    rewrite E in Hl. lia.
  - split; [reflexivity|]. intros _. rewrite re_sub_no_match by assumption.
    reflexivity.
Qed.

(** X2: highlighting does not hide or create a trigger: the detector
    answers the same on the highlighted text as on the text. *)
Theorem detect_after_highlight (content : option pystr) :
  detect_gemini_trigger (highlight_gemini_content content)
  = detect_gemini_trigger content.
Proof.
  destruct content as [[|c t]|]; try reflexivity.
  rewrite highlight_str.
  change (detect_gemini_trigger (Some (c :: t))) with (re_search None (c :: t)).
  destruct (re_search None (c :: t)) eqn:Hs.
  - pose proof (re_search_re_sub _ _ Hs) as Hs'.
    destruct (re_sub None (c :: t)); [discriminate|exact Hs'].
  - rewrite re_sub_no_match by assumption. exact Hs.
Qed.

Lemma re_sub_keeps_text (s : pystr) (prev : option N) :
  s `sublist_of` re_sub prev s /\
  filter (fun c => c <> 42%N) (re_sub prev s)
  = filter (fun c => c <> 42%N) s.
Proof.
  funelim (re_sub prev s).
  - destruct (proj1 (match_at_spec _ _ _ _) Hm) as (E & _).
    destruct H as [H1 H2]. unfold replace_match. rewrite E.
    rewrite <- !app_assoc. split.
    + apply sublist_inserts_l. apply sublist_app; [reflexivity|].
      apply sublist_inserts_l. assumption.
    + rewrite !filter_app, H2. reflexivity.
  - split; reflexivity.
  - destruct H as [H1 H2]. split.
    + apply sublist_skip. assumption.
    + rewrite !filter_cons, H2. reflexivity.
Qed.

(** X3: the highlighter only inserts asterisks: the text is contained in
    the highlighted text in order, and with every asterisk deleted the
    two are the same. *)
Theorem highlight_only_inserts_markers (t : pystr) :
  exists t', highlight_gemini_content (Some t) = Some t' /\
             t `sublist_of` t' /\
             filter (fun c => c <> 42%N) t' = filter (fun c => c <> 42%N) t.
Proof.
  destruct t as [|c t]; [exists []; repeat split; reflexivity|].
  exists (re_sub None (c :: t)). split; [reflexivity|].
  apply re_sub_keeps_text.
Qed.


(** ** Letter case *)

Lemma ascii_toupper_lower (c : N) : lower (ascii_toupper c) = lower c.
Proof.
  unfold lower, ascii_toupper, ascii_lower, ascii_upper.
  destruct (N.leb_spec 97 c), (N.leb_spec c 122); simpl; try reflexivity.
  replace (c - 32 <? 128)%N with true by (symmetry; apply N.ltb_lt; lia).
  replace (c <? 128)%N with true by (symmetry; apply N.ltb_lt; lia).
  replace (65 <=? c - 32)%N with true by (symmetry; apply N.leb_le; lia).
  replace (c - 32 <=? 90)%N with true by (symmetry; apply N.leb_le; lia).
  replace (c <=? 90)%N with false by (symmetry; apply N.leb_gt; lia).
  rewrite andb_false_r. simpl. lia.
Qed.

Lemma ascii_toupper_word (c : N) : is_word (ascii_toupper c) = is_word c.
Proof.
  unfold ascii_toupper.
  destruct (ascii_lower c) eqn:E; [|reflexivity].
  unfold is_word.
  unfold ascii_lower in E. apply andb_true_iff in E as [E1 E2].
  apply N.leb_le in E1, E2.
  replace (c - 32 <? 128)%N with true by (symmetry; apply N.ltb_lt; lia).
  replace (c <? 128)%N with true by (symmetry; apply N.ltb_lt; lia).
  unfold ascii_upper, ascii_lower.
  replace (65 <=? c - 32)%N with true by (symmetry; apply N.leb_le; lia).
  replace (c - 32 <=? 90)%N with true by (symmetry; apply N.leb_le; lia).
  replace (97 <=? c)%N with true by (symmetry; apply N.leb_le; lia).
  replace (c <=? 122)%N with true by (symmetry; apply N.leb_le; lia).
  simpl. rewrite !orb_true_r. reflexivity.
Qed.

Lemma ascii_tolower_lower (c : N) : lower (ascii_tolower c) = lower c.
Proof.
  unfold ascii_tolower.
  destruct (ascii_upper c) eqn:E; [|reflexivity].
  unfold lower. rewrite E.
  unfold ascii_upper in E |- *. apply andb_true_iff in E as [E1 E2].
  apply N.leb_le in E1, E2.
  replace (c + 32 <? 128)%N with true by (symmetry; apply N.ltb_lt; lia).
  replace (c <? 128)%N with true by (symmetry; apply N.ltb_lt; lia).
  replace (c + 32 <=? 90)%N with false by (symmetry; apply N.leb_gt; lia).
  rewrite andb_false_r. reflexivity.
Qed.

Lemma ascii_tolower_word (c : N) : is_word (ascii_tolower c) = is_word c.
Proof.
  unfold ascii_tolower.
  destruct (ascii_upper c) eqn:E; [|reflexivity].
  unfold is_word.
  unfold ascii_upper in E. apply andb_true_iff in E as [E1 E2].
  apply N.leb_le in E1, E2.
  replace (c + 32 <? 128)%N with true by (symmetry; apply N.ltb_lt; lia).
  replace (c <? 128)%N with true by (symmetry; apply N.ltb_lt; lia).
  unfold ascii_upper, ascii_lower.
  replace (65 <=? c)%N with true by (symmetry; apply N.leb_le; lia).
  replace (c <=? 90)%N with true by (symmetry; apply N.leb_le; lia).
  replace (97 <=? c + 32)%N with true by (symmetry; apply N.leb_le; lia).
  replace (c + 32 <=? 122)%N with true by (symmetry; apply N.leb_le; lia).
  simpl. rewrite !orb_true_r. reflexivity.
Qed.

(** The search does not see a change of characters that keeps their
    lowercase and their word class. *)
Lemma match_literals_recase (f : N -> N) (pat s : pystr) :
  (forall c, lower (f c) = lower c) ->
  match_literals pat (f <$> s)
  = (fun mr : pystr * pystr => (f <$> mr.1, f <$> mr.2)) <$> match_literals pat s.
Proof.
  intros Hf. revert s. induction pat as [|lo pat IH]; intros s; simpl.
  - reflexivity.
  - destruct s as [|c s]; [reflexivity|]. simpl.
    unfold literal_ignore. rewrite Hf.
    destruct (_ || _); [|reflexivity].
    rewrite IH. destruct (match_literals pat s) as [[m r]|]; reflexivity.
Qed.

Lemma word_at_recase (f : N -> N) (o : option N) :
  (forall c, is_word (f c) = is_word c) -> word_at (f <$> o) = word_at o.
Proof. intros Hf. destruct o; simpl; auto. Qed.

Lemma match_at_recase (f : N -> N) (prev : option N) (s : pystr) :
  (forall c, lower (f c) = lower c) ->
  (forall c, is_word (f c) = is_word c) ->
  match_at (f <$> prev) (f <$> s)
  = (fun mr : pystr * pystr => (f <$> mr.1, f <$> mr.2)) <$> match_at prev s.
Proof.
  intros Hl Hw.
  assert (Hh : forall l : pystr, head (f <$> l) = f <$> head l)
    by (intros [|? ?]; reflexivity).
  unfold match_at, at_boundary.
  rewrite match_literals_recase by assumption.
  rewrite Hh, !word_at_recase by assumption.
  destruct (xorb _ _); [|reflexivity].
  destruct (match_literals keyword s) as [[m r]|]; [|reflexivity]. simpl.
  rewrite fmap_last, Hh, !word_at_recase by assumption.
  destruct (xorb _ _); reflexivity.
Qed.

Lemma re_search_recase (f : N -> N) (s : pystr) :
  (forall c, lower (f c) = lower c) ->
  (forall c, is_word (f c) = is_word c) ->
  forall prev, re_search (f <$> prev) (f <$> s) = re_search prev s.
Proof.
  intros Hl Hw. induction s as [|c s IH]; intros prev.
  - rewrite !re_search_unfold.
    rewrite (match_at_recase f prev []) by assumption.
    destruct (match_at prev []); reflexivity.
  - rewrite (re_search_unfold _ (f <$> c :: s)), (re_search_unfold _ (c :: s)).
    rewrite (match_at_recase f prev (c :: s)) by assumption.
    destruct (match_at prev (c :: s)); [reflexivity|]. simpl.
    apply (IH (Some c)).
Qed.

(** X4: the detector does not depend on the case of the ASCII letters of
    the text: the text in upper case and the text in lower case are
    answered like the text. *)
Theorem detect_ignores_case (t : pystr) :
  detect_gemini_trigger (Some (ascii_toupper <$> t))
  = detect_gemini_trigger (Some t) /\
  detect_gemini_trigger (Some (ascii_tolower <$> t))
  = detect_gemini_trigger (Some t).
Proof.
  assert (E : forall s, detect_gemini_trigger (Some s) = re_search None s)
    by (intros [|? ?]; reflexivity).
  rewrite !E. split.
  - apply (re_search_recase ascii_toupper t ascii_toupper_lower
             ascii_toupper_word None).
  - apply (re_search_recase ascii_tolower t ascii_tolower_lower
             ascii_tolower_word None).
Qed.


(** ** The transcript context *)

Lemma pystr_of_length (s : string) : length (pystr_of s) = String.length s.
Proof.
  unfold pystr_of. rewrite length_fmap.
  induction s as [|a s IH]; simpl; [reflexivity|]. rewrite IH. reflexivity.
Qed.

Lemma pretty_N_go_length (k : nat) : forall x s,
  (x < 10 ^ N.of_nat k)%N ->
  String.length (pretty_N_go x s) <= String.length s + k.
Proof.
  induction k as [|k IH]; intros x s Hx.
  - assert (x = 0%N) as -> by (simpl in Hx; lia).
    rewrite pretty_N_go_0. lia.
  - destruct (decide (x = 0%N)) as [->|Hne]; [rewrite pretty_N_go_0; lia|].
    rewrite pretty_N_go_step by lia.
    etrans; [apply IH|simpl; lia].
    rewrite Nat2N.inj_succ, N.pow_succ_r' in Hx.
    apply N.Div0.div_lt_upper_bound. lia.
Qed.

Lemma fmt_int_length (z : Z) :
  (0 <= z < 100000)%Z -> length (fmt_int z) <= 5.
Proof.
  intros Hz. unfold fmt_int. rewrite pystr_of_length.
  destruct z as [|p|p]; [simpl; lia| |lia].
  unfold pretty, pretty_Z, pretty, pretty_positive, pretty, pretty_N.
  destruct (decide _); [simpl; lia|].
  apply (pretty_N_go_length 5 (N.pos p) "").
  change (10 ^ N.of_nat 5)%N with 100000%N. lia.
Qed.

(** A found index points at the character, and before it there is
    none. *)
Lemma find_char_found (c : N) (s : pystr) :
  (0 <= find_char c s)%Z ->
  exists pre post, s = pre ++ c :: post /\ c ∉ pre /\
                   length pre = Z.to_nat (find_char c s).
Proof.
  induction s as [|x s IH]; simpl; [lia|].
  destruct (N.eqb_spec x c) as [->|Hne].
  - intros _. exists [], s. repeat split. apply not_elem_of_nil.
  - destruct (Z.ltb_spec (find_char c s) 0); [lia|]. intros _.
    destruct IH as (pre & post & -> & Hpre & Hlen); [assumption|].
    exists (x :: pre), post. repeat split.
    + intros [?|?]%elem_of_cons; [congruence|contradiction].
    + simpl. rewrite Hlen. lia.
Qed.

Lemma find_char_absent (c : N) (s : pystr) :
  (find_char c s < 0)%Z -> c ∉ s.
Proof.
  induction s as [|x s IH]; simpl; [intros _; apply not_elem_of_nil|].
  destruct (N.eqb_spec x c) as [->|Hne]; [lia|].
  destruct (Z.ltb_spec (find_char c s) 0); [|lia]. intros _.
  intros [?|?]%elem_of_cons; [congruence|]. apply IH; assumption.
Qed.

(** X5: whatever the transcript file holds, the context handed to the
    gemini command has at most [max_context_chars] characters; a
    transcript within the limit is handed over unchanged. *)
Theorem transcript_context_within_limit (date_str full_content : pystr) :
  let context :=
    get_current_transcript_context date_str (Contents full_content) in
  (Z.of_nat (length context) <= max_context_chars)%Z /\
  ((Z.of_nat (length full_content) <=? max_context_chars)%Z = true ->
   context = full_content).
Proof.
  cbv zeta. unfold get_current_transcript_context, max_context_chars.
  destruct (Z.leb_spec (Z.of_nat (length full_content)) 96000) as [Hle|Hgt].
  - split; [lia|reflexivity].
  - split; [|discriminate].
    set (window := drop _ full_content).
    assert (Hw : length window = Z.to_nat 95900).
    { unfold window. rewrite length_drop. lia. }
    set (truncated := if (0 <? find_char 10 window)%Z then _ else window).
    assert (Ht : (Z.of_nat (length truncated) <= 95900)%Z).
    { unfold truncated. destruct (0 <? _)%Z; [rewrite length_drop|]; lia. }
    pose proof (fmt_int_length (Z.of_nat (length truncated))) as Hd.
    rewrite !length_app, !pystr_of_length. simpl String.length.
    change (length nl) with 1%nat. lia.
Qed.

(** X6: a transcript over the limit is cut at its front only: what is
    handed over is a header line, an empty line and a suffix of the
    transcript, at most 95900 characters long, and the header gives the
    length of that suffix.  When the last 95900 characters hold a line
    break after their first character and do not start with one, the
    suffix starts right after a line break. *)
Theorem transcript_context_truncation (date_str full_content : pystr) :
  (max_context_chars < Z.of_nat (length full_content))%Z ->
  exists dropped kept,
    full_content = dropped ++ kept /\
    get_current_transcript_context date_str (Contents full_content)
    = pystr_of "[CONTEXT TRUNCATED - SHOWING MOST RECENT "
      ++ fmt_int (Z.of_nat (length kept)) ++ pystr_of " CHARS]"
      ++ nl ++ nl ++ kept /\
    (Z.of_nat (length kept) <= max_context_chars - 100)%Z /\
    let window :=
      drop (length full_content - Z.to_nat (max_context_chars - 100))
           full_content in
    (10%N ∈ drop 1 window -> head window <> Some 10%N ->
     last dropped = Some 10%N).
Proof.
  intros Hgt. unfold get_current_transcript_context, max_context_chars in *.
  destruct (Z.leb_spec (Z.of_nat (length full_content)) 96000) as [Hle|_];
    [lia|].
  cbv zeta.
  set (n := (length full_content - Z.to_nat (96000 - 100))%nat).
  set (window := drop n full_content).
  assert (Hw : length window = Z.to_nat 95900).
  { unfold window, n. rewrite length_drop. lia. }
  destruct (Z.ltb_spec 0 (find_char 10 window)) as [Hpos|Hneg].
  - destruct (find_char_found 10 window) as (pre & post & Ew & Hpre & Hlen);
      [lia|].
    exists (take n full_content ++ pre ++ [10%N]), post.
    assert (Ed : drop (Z.to_nat (find_char 10 window + 1)) window = post).
    { rewrite Ew at 2. replace (Z.to_nat (find_char 10 window + 1))
        with (length (pre ++ [10%N])) by (rewrite length_app; simpl; lia).
      rewrite (cons_middle 10%N pre post), app_assoc.
      apply drop_app_length. }
    split; [|split; [|split]].
    + rewrite <- (take_drop n full_content) at 1. fold window.
      rewrite Ew at 1. rewrite <- !app_assoc. reflexivity.
    + rewrite Ed. reflexivity.
    + rewrite Ew, length_app in Hw. simpl in Hw. lia.
    + intros _ _. rewrite !app_assoc. apply last_snoc.
  - exists (take n full_content), window.
    split; [|split; [|split]].
    + symmetry. apply take_drop.
    + reflexivity.
    + lia.
    + intros Hin Hhead. exfalso.
      destruct window as [|c rest] eqn:Ew; [inversion Hin|].
      simpl in Hin, Hhead. change (drop 0 rest) with rest in Hin.
      simpl in Hneg.
      destruct (N.eqb_spec c 10) as [->|Hc]; [congruence|].
      destruct (Z.ltb_spec (find_char 10 rest) 0) as [Hlt|Hge].
      * apply (find_char_absent _ _ Hlt). assumption.
      * lia.
Qed.


(** ** The gemini command and the notification *)

Lemma lstrip_spec (s : pystr) :
  exists pre, s = pre ++ lstrip s /\ forallb py_isspace pre = true /\
              from_option py_isspace false (head (lstrip s)) = false.
Proof.
  induction s as [|c s (pre & E & Hpre & Hh)]; simpl.
  - exists []. auto.
  - destruct (py_isspace c) eqn:Ec.
    + exists (c :: pre). simpl. rewrite Ec, Hpre. split; [congruence|auto].
    + exists []. simpl. auto.
Qed.

Lemma lstrip_nil (s : pystr) :
  lstrip s = [] <-> forallb py_isspace s = true.
Proof.
  induction s as [|c s IH]; simpl; [tauto|].
  destruct (py_isspace c); simpl; [assumption|]. split; discriminate.
Qed.

Lemma forallb_reverse {A} (f : A -> bool) (l : list A) :
  forallb f (reverse l) = forallb f l.
Proof.
  induction l as [|x l IH]; [reflexivity|].
  rewrite reverse_cons, forallb_app, IH. simpl.
  rewrite andb_true_r. apply andb_comm.
Qed.

(** [strip] gives the empty string exactly on white space. *)
Lemma strip_nil (s : pystr) :
  strip s = [] <-> forallb py_isspace s = true.
Proof.
  unfold strip. rewrite <- lstrip_nil.
  split.
  - intros H. apply (f_equal reverse) in H.
    rewrite reverse_involutive in H. change (reverse []) with (@nil N) in H.
    apply lstrip_nil in H. rewrite forallb_reverse in H.
    destruct (lstrip_spec s) as (pre & E & Hpre & Hh).
    destruct (lstrip s) as [|c r]; [reflexivity|].
    simpl in H, Hh. rewrite Hh in H. discriminate.
  - intros ->. reflexivity.
Qed.

Lemma strip_trimmed (s : pystr) : trimmed (strip s).
Proof.
  unfold trimmed, strip.
  destruct (lstrip_spec s) as (pre & E & Hpre & Hh).
  set (a := lstrip s) in *.
  destruct (lstrip_spec (reverse a)) as (pre' & E' & Hpre' & Hh').
  set (b := lstrip (reverse a)) in *.
  rewrite head_reverse, last_reverse. split; [|assumption].
  destruct (decide (b = [])) as [->|Hb]; [reflexivity|].
  assert (last b = head a) as ->; [|assumption].
  rewrite <- last_reverse, E'.
  destruct (proj2 (last_is_Some b) Hb) as [x Hx].
  apply last_Some in Hx as [b' ->].
  rewrite app_assoc, !last_snoc. reflexivity.
Qed.

(** The gemini command is run once; every failure is caught and printed. *)
Lemma run_gemini_cli_query_cases (w : world) (query : pystr) :
  exists t,
    run_gemini_cli_query w query
    = (RunGemini query :: t,
       inr match gemini_run w with
           | inr (Completed rc out _) =>
               if (rc =? 0)%Z then Some (strip out) else None
           | inl _ => None
           end) /\
    Forall (fun ev => exists line, ev = Print line) t.
Proof.
  unfold run_gemini_cli_query.
  destruct (gemini_run w) as [e|[rc out err]].
  - destruct e; io_eval; eexists; (split; [reflexivity|]);
      repeat constructor; eauto.
  - io_eval. destruct (rc =? 0)%Z.
    + exists []. split; [reflexivity|constructor].
    + eexists. split; [reflexivity|]. repeat constructor. eauto.
Qed.

(** X7: the gemini command is run once and [run_gemini_cli_query] always
    returns; it returns an answer exactly when the command exits with
    code 0, and the answer is the command's output with the white space
    at both ends removed. *)
Theorem run_gemini_cli_query_answer (w : world) (query : pystr) :
  exists t r,
    run_gemini_cli_query w query = (RunGemini query :: t, inr r) /\
    Forall (fun ev => exists line, ev = Print line) t /\
    (forall s, r = Some s <->
               exists out err, gemini_run w = inr (Completed 0 out err) /\
                               s = strip out) /\
    (forall s, r = Some s -> trimmed s).
Proof.
  destruct (run_gemini_cli_query_cases w query) as (t & E & Ht).
  eexists t, _. split; [exact E|]. split; [exact Ht|].
  destruct (gemini_run w) as [e|[rc out err]].
  - split; [|discriminate]. intros s. split; [discriminate|].
    intros (? & ? & ? & _). discriminate.
  - destruct (Z.eqb_spec rc 0) as [->|Hrc].
    + split.
      * intros s. split.
        -- intros [= <-]. eauto.
        -- intros (o & e & [= <- <-] & ->). reflexivity.
      * intros s [= <-]. apply strip_trimmed.
    + split; [|discriminate]. intros s. split; [discriminate|].
      intros (o & e & [= ? ? ?] & _). contradiction.
Qed.

Lemma posts_app (t1 t2 : list event) : posts (t1 ++ t2) = posts t1 ++ posts t2.
Proof. apply omap_app. Qed.

Lemma notification_message_length (t : option pystr) (r : pystr) :
  length (notification_message t r) = 72 + length (fmt t) + length r.
Proof.
  unfold notification_message, robot, nl.
  rewrite !length_app, !pystr_of_length. simpl. lia.
Qed.

(** What [send_agent_response_notification] posts. *)
Lemma send_agent_response_notification_posts w response trigger_title :
  exists tr,
    send_agent_response_notification w response trigger_title = (tr, inr tt) /\
    posts tr =
    [(if (4000 <? Z.of_nat (length (notification_message trigger_title response)))%Z
      then notification_message trigger_title
             (take (Z.to_nat (4000 - 200)) response ++ pystr_of "..." ++ nl
              ++ pystr_of "[Response truncated for mobile notification]")
      else notification_message trigger_title response,
      pystr_of "Gemini AI Agent Response")].
Proof.
  unfold send_agent_response_notification.
  destruct (ntfy_post w) as [e|]; io_eval;
    (eexists; split; [reflexivity|]); reflexivity.
Qed.

(** X8: the notification is one message under the title "Gemini AI Agent
    Response".  A response of any length is cut so that the message has
    at most 4000 characters, as long as the title of the entry has at most
    80; a message within the limit is sent whole. *)
Theorem notification_within_limit (w : world) (response : pystr)
    (trigger_title : option pystr) :
  length (fmt trigger_title) <= 80 ->
  exists message,
    posts (send_agent_response_notification w response trigger_title).1
    = [(message, pystr_of "Gemini AI Agent Response")] /\
    (Z.of_nat (length message) <= 4000)%Z /\
    ((Z.of_nat (length (notification_message trigger_title response))
      <=? 4000)%Z = true ->
     message = notification_message trigger_title response).
Proof.
  intros Ht.
  destruct (send_agent_response_notification_posts w response trigger_title)
    as (tr & E & Hp).
  rewrite E. cbn [fst]. rewrite Hp.
  eexists. split; [reflexivity|].
  destruct (Z.ltb_spec 4000
              (Z.of_nat (length (notification_message trigger_title response))))
    as [Hlong|Hshort].
  - split.
    + rewrite notification_message_length, !length_app, length_take,
        !pystr_of_length.
      simpl String.length. change (length nl) with 1%nat. lia.
    + intros H. apply Z.leb_le in H. lia.
  - split; [lia|reflexivity].
Qed.

(** X9: the trigger handling sends a notification exactly when the gemini
    command answers; the notification is a single message under the title
    "Gemini AI Agent Response".  No error notification is ever sent: every
    failure of the command or of the endpoint is caught before the handler
    that would send one. *)
Theorem notification_iff_answer (w : world) (l : lifelog)
    (processed_content : option pystr) :
  let t := (process_gemini_trigger w l processed_content).1 in
  (answers w = true /\
   exists message, posts t = [(message, pystr_of "Gemini AI Agent Response")])
  \/ (answers w = false /\ posts t = []).
Proof.
  cbv zeta. unfold process_gemini_trigger, answers.
  set (q := gemini_query _ _ _ _).
  set (tt' := get_default (title l) default_title).
  destruct (run_gemini_cli_query_cases w q) as (t & E & Hpr).
  assert (Hpt : posts t = []).
  { clear -Hpr. induction Hpr as [|ev t [line ->] _ IH]; [reflexivity|].
    exact IH. }
  rewrite E. clear E.
  assert (Hrun : posts (RunGemini q :: t) = []) by exact Hpt.
  destruct (gemini_run w) as [e|[rc out err]].
  { right. split; [reflexivity|]. io_eval. cbn [fst].
    rewrite !posts_app, Hrun. reflexivity. }
  destruct (rc =? 0)%Z; cbn [andb].
  2: { right. split; [reflexivity|]. io_eval. cbn [fst].
       rewrite !posts_app, Hrun. reflexivity. }
  destruct (strip out) as [|c r] eqn:Es.
  - right. split.
    + apply strip_nil in Es. rewrite Es. reflexivity.
    + io_eval. cbn [fst]. rewrite !posts_app, Hrun. reflexivity.
  - left. split.
    + destruct (forallb py_isspace out) eqn:Ef; [|reflexivity].
      apply strip_nil in Ef. congruence.
    + destruct (send_agent_response_notification_posts w (c :: r) tt')
        as (tr & Etr & Hposts).
      io_eval. rewrite Etr. cbn [fst].
      eexists. rewrite !posts_app, Hrun, Hposts. reflexivity.
Qed.

(** X10: the start-up probe never raises, and it reports the command as
    available exactly when the probe exits with code 0. *)
Theorem check_gemini_cli_availability_report (probe : exn + completed_process) :
  exists lines,
    check_gemini_cli_availability probe = (Print <$> lines, inr tt) /\
    (lines = [tick ++ pystr_of " gemini-cli is available"] <->
     exists out err, probe = inr (Completed 0 out err)).
Proof.
  unfold check_gemini_cli_availability.
  destruct probe as [e|[rc out err]].
  - destruct e; io_eval; cbn [app];
      (first [eexists [_]; split; [reflexivity|]
             |eexists [_; _]; split; [reflexivity|]]);
      (split; [intros H; apply (f_equal head) in H; vm_compute in H;
               discriminate
              |intros (? & ? & ?); discriminate]).
  - io_eval. destruct (Z.eqb_spec rc 0) as [->|Hrc]; cbn [app].
    + eexists [_]. split; [reflexivity|]. split; eauto.
    + eexists [_; _]. split; [reflexivity|].
      split; [discriminate|]. intros (? & ? & [= ? ? ?]). contradiction.
Qed.


(** ** The status line and the transcript entries of a cycle *)

(** X11: when the block that handles the selected update is left without
    an exception, the last line it prints is the status line, and the
    status line says "No": also in the cycle that has just handled a new
    trigger, because the trigger is in the dedup set by then. *)
Theorem status_line_always_no (h : handler) (w : world) (date : pystr)
    (u : update) (processed : gset pystr) :
  (process_update h w date u processed).2 = inr tt ->
  last (process_update h w date u processed).1.1
  = Some (Print (status_line date "No")).
Proof.
  destruct u as [[[l p] pc] has]. unfold process_update, status_line.
  destruct (has && bool_decide (_ ∉ processed)) eqn:Hc.
  - destruct (h w l pc) as [t [e|[]]]; cbn [fst snd]; [discriminate|].
    destruct (log_write w); cbn [fst snd]; [discriminate|]. intros _.
    rewrite (bool_decide_eq_false_2 (_ ∉ {[_]} ∪ processed))
      by set_solver.
    rewrite andb_false_r.
    rewrite (app_assoc _ [_] [_] : _ ++ [_; _] = _). apply last_snoc.
  - destruct (log_write w); cbn [fst snd]; [discriminate|]. intros _.
    rewrite Hc. reflexivity.
Qed.

Lemma logged_app t1 t2 : logged (t1 ++ t2) = logged t1 ++ logged t2.
Proof. apply omap_app. Qed.

Lemma logged_silent (t : list event) : Forall not_log t -> logged t = [].
Proof.
  induction 1 as [|ev t Hev _ IH]; [reflexivity|].
  destruct ev; try contradiction; exact IH.
Qed.

Lemma process_gemini_trigger_no_log w l pc :
  emits not_log (process_gemini_trigger w l pc).
Proof.
  unfold process_gemini_trigger, run_gemini_cli_query,
    send_agent_response_notification, send_error_notification, print,
    outcome, raised.
  io_cases.
Qed.

Lemma update_stable_logged m old : logged (update_stable m old).1 = [].
Proof.
  unfold update_stable. destruct (stable_lifelogs m); [reflexivity|].
  simpl. destruct (bool_decide _); reflexivity.
Qed.

(** The block writes one transcript entry when the trigger handling
    returns, whether the write returns or raises. *)
Lemma process_update_logged h w date l p pc has processed :
  (forall w l pc, no_raise (h w l pc)) ->
  (forall w l pc, emits not_log (h w l pc)) ->
  logged (process_update h w date (l, p, pc, has) processed).1.1
  = [(p, pc, endTime l)].
Proof.
  intros Hn Hh. unfold process_update.
  destruct (has && bool_decide _);
    [|destruct (log_write w); reflexivity].
  pose proof (logged_silent _ (Hh w l pc)) as Hs.
  destruct (Hn w l pc) as [[] E].
  destruct (h w l pc) as [t r]. cbn [fst snd] in *. subst r.
  destruct (log_write w); cbn [fst snd]; rewrite logged_app;
    change (logged (_ :: _ :: t)) with (logged t);
    rewrite Hs; reflexivity.
Qed.

(** The transcript entry of a cycle is that of the selected update. *)
Lemma poll_cycle_logged h w st feed :
  (forall w l pc, no_raise (h w l pc)) ->
  (forall w l pc, emits not_log (h w l pc)) ->
  http_get w = inr feed ->
  logged (poll_cycle h w st).1
  = match (classify (reverse feed) (last_lifelogs st)).1.2 with
    | Some (l, p, pc, _) => [(p, pc, endTime l)]
    | None => []
    end.
Proof.
  intros Hn Hh H. unfold poll_cycle, try_body.
  rewrite (fetch_lifelogs_ok _ _ _ _ H).
  destruct (classify (reverse feed) (last_lifelogs st)) as [[ll mru] ids].
  cbn [fst snd].
  pose proof (update_stable_logged (cleanup ll ids) (last_stable_end_time st))
    as E3.
  destruct mru as [[[[l p] pc] has]|].
  - pose proof (process_update_logged h w (today_est_date w) l p pc has
                  (processed_gemini_triggers st) Hn Hh) as E1.
    destruct (process_update h w (today_est_date w) (l, p, pc, has)
                (processed_gemini_triggers st)) as [[t P] [e|[]]];
      cbn [fst snd] in E1.
    + cbn [fst snd]. rewrite !logged_app, E1. reflexivity.
    + destruct (update_stable (cleanup ll ids) (last_stable_end_time st))
        as [t2 wm].
      cbn [fst snd] in *. rewrite !logged_app, E1, E3. reflexivity.
  - destruct (update_stable (cleanup ll ids) (last_stable_end_time st))
      as [t2 wm].
    cbn [fst snd] in *. rewrite !logged_app, E3. reflexivity.
Qed.




(** ** The tracked entries over a run *)

(** The tracked entries a cycle leaves do not depend on the trigger
    handling: the map is updated before the handling is called. *)
Lemma poll_cycle_tracked h w st :
  last_lifelogs (poll_cycle h w st).2 = tracked_after w st.
Proof.
  unfold poll_cycle, try_body, tracked_after.
  destruct (http_get w) as [e|feed] eqn:H.
  - rewrite (fetch_lifelogs_error _ _ _ _ H). reflexivity.
  - rewrite (fetch_lifelogs_ok _ _ _ _ H).
    destruct (classify (reverse feed) (last_lifelogs st)) as [[ll mru] ids].
    destruct mru as [u|].
    + destruct (process_update h w (today_est_date w) u
                  (processed_gemini_triggers st)) as [[t P] [e|[]]].
      * reflexivity.
      * destruct (update_stable (cleanup ll ids) (last_stable_end_time st)).
        reflexivity.
    + destruct (update_stable (cleanup ll ids) (last_stable_end_time st)).
      reflexivity.
Qed.

(** One entry replaces the record of its identifier. *)
Lemma classify_step_record m u ids l :
  (classify_step (m, u, ids) l).1.1
  = <[lifelog_id l := next_record (m !! lifelog_id l) l]> m.
Proof.
  unfold classify_step, next_record.
  destruct (m !! lifelog_id l) as [prev|]; [|reflexivity].
  destruct (bool_decide _ || bool_decide _); reflexivity.
Qed.

Lemma classify_fold_lookup_other k ls : forall m u ids,
  k ∉ lifelog_id <$> ls ->
  (foldl classify_step (m, u, ids) ls).1.1 !! k = m !! k.
Proof.
  induction ls as [|x ls IH]; intros m u ids Hk; [reflexivity|].
  rewrite classify_fold_cons.
  rewrite fmap_cons, not_elem_of_cons in Hk. destruct Hk as [Hx Hk].
  pose proof (classify_step_record m u ids x) as E.
  destruct (classify_step (m, u, ids) x) as [[m' u'] ids'].
  cbn [fst] in E. subst m'.
  rewrite IH by assumption. apply lookup_insert_ne. congruence.
Qed.

(** With distinct identifiers in the fetch, every entry meets the record
    that the map held before the cycle. *)
Lemma classify_fold_lookup ls : forall m u ids,
  NoDup (lifelog_id <$> ls) ->
  forall l, l ∈ ls ->
    (foldl classify_step (m, u, ids) ls).1.1 !! lifelog_id l
    = Some (next_record (m !! lifelog_id l) l).
Proof.
  induction ls as [|x ls IH]; intros m u ids Hnd l Hl; [inversion Hl|].
  rewrite classify_fold_cons.
  rewrite fmap_cons in Hnd. apply NoDup_cons in Hnd as [Hx Hnd].
  pose proof (classify_step_record m u ids x) as E.
  destruct (classify_step (m, u, ids) x) as [[m' u'] ids'].
  cbn [fst] in E. subst m'.
  apply elem_of_cons in Hl as [->|Hl].
  - rewrite classify_fold_lookup_other by assumption.
    apply lookup_insert_eq.
  - rewrite (IH _ _ _ Hnd l Hl). f_equal. f_equal.
    apply lookup_insert_ne. intros E. apply Hx. rewrite E.
    apply list_elem_of_fmap. eauto.
Qed.

Lemma tracked_after_lookup w st feed l :
  http_get w = inr feed ->
  NoDup (lifelog_id <$> feed) ->
  l ∈ feed ->
  tracked_after w st !! lifelog_id l
  = Some (next_record (last_lifelogs st !! lifelog_id l) l).
Proof.
  intros H Hnd Hl. unfold tracked_after. rewrite H.
  pose proof (classify_fold_lookup (reverse feed) (last_lifelogs st) None ∅)
    as Hlk.
  destruct (classify_fold_ids (reverse feed) (last_lifelogs st) None ∅)
    as [Hids _].
  fold (classify (reverse feed) (last_lifelogs st)) in Hlk, Hids.
  destruct (classify (reverse feed) (last_lifelogs st)) as [[ll mru] ids].
  cbn [fst snd] in *. unfold cleanup.
  apply map_lookup_filter_Some. split.
  - apply Hlk.
    + rewrite fmap_reverse, reverse_Permutation. assumption.
    + apply elem_of_reverse. assumption.
  - cbn [fst]. rewrite Hids. apply elem_of_union_l, elem_of_list_to_set.
    apply list_elem_of_fmap. exists l. split; [reflexivity|].
    apply elem_of_reverse. assumption.
Qed.

(** X13: with distinct identifiers in the fetch, the cycle leaves for
    every fetched entry the record that the loop computes from the record
    the entry had before the cycle: count 1 for a new or changed entry,
    the old count plus one for an unchanged entry.  This holds whatever
    the trigger handling does. *)
Theorem tracked_record_after_fetch (h : handler) (w : world)
    (st : engine_state) (feed : list lifelog) (l : lifelog) :
  http_get w = inr feed ->
  NoDup (lifelog_id <$> feed) ->
  l ∈ feed ->
  let old := last_lifelogs st !! lifelog_id l in
  let new := last_lifelogs (poll_cycle h w st).2 !! lifelog_id l in
  (old = None -> new = Some (seen l 1)) /\
  (forall prev, old = Some prev ->
     get_or (markdown l) [] = content prev ->
     endTime l = tracked_endTime prev ->
     new = Some (seen l (stable_count prev + 1))) /\
  (forall prev, old = Some prev ->
     get_or (markdown l) [] <> content prev
     \/ endTime l <> tracked_endTime prev ->
     new = Some (seen l 1)).
Proof.
  intros H Hnd Hl old new. unfold new.
  rewrite poll_cycle_tracked, (tracked_after_lookup w st feed l H Hnd Hl).
  fold old. unfold next_record, seen. split; [|split].
  - intros ->. reflexivity.
  - intros prev -> Hc He.
    rewrite (bool_decide_eq_false_2 _ (fun Hn => Hn Hc)),
      (bool_decide_eq_false_2 _ (fun Hn => Hn He)).
    cbn [orb]. rewrite Hc, He. reflexivity.
  - intros prev -> Hne.
    destruct (bool_decide _ || bool_decide _) eqn:Eb; [reflexivity|].
    apply orb_false_iff in Eb as [E1 E2].
    apply bool_decide_eq_false in E1, E2.
    destruct Hne as [Hne|Hne]; [destruct E1|destruct E2]; assumption.
Qed.

(** The invariant of a feed that is fetched again and again. *)
Lemma poll_cycle_seen h w st feed (n : Z) :
  http_get w = inr feed ->
  NoDup (lifelog_id <$> feed) ->
  (forall l, l ∈ feed ->
     last_lifelogs st !! lifelog_id l
     = if (n =? 0)%Z then None else Some (seen l n)) ->
  forall l, l ∈ feed ->
    last_lifelogs (poll_cycle h w st).2 !! lifelog_id l
    = Some (seen l (n + 1)).
Proof.
  intros H Hnd Hst l Hl.
  rewrite poll_cycle_tracked, (tracked_after_lookup w st feed l H Hnd Hl).
  rewrite (Hst l Hl). unfold next_record, seen.
  destruct (Z.eqb_spec n 0) as [->|Hn]; [reflexivity|]. cbn.
  rewrite !bool_decide_eq_false_2 by (intros Hne; apply Hne; reflexivity).
  reflexivity.
Qed.

Lemma run_cycles_seen h feed ws : forall st (n : Z),
  (0 <= n)%Z ->
  Forall (fun w => http_get w = inr feed) ws ->
  NoDup (lifelog_id <$> feed) ->
  (forall l, l ∈ feed ->
     last_lifelogs st !! lifelog_id l
     = if (n =? 0)%Z then None else Some (seen l n)) ->
  forall l, l ∈ feed ->
    last_lifelogs (run_cycles h ws st).2 !! lifelog_id l
    = if (n + Z.of_nat (length ws) =? 0)%Z then None
      else Some (seen l (n + Z.of_nat (length ws))).
Proof.
  induction ws as [|w ws IH]; intros st n Hn Hws Hnd Hst l Hl.
  - simpl. rewrite Z.add_0_r. auto.
  - apply Forall_cons in Hws as [Hw Hws].
    rewrite run_cycles_cons. cbn [snd].
    replace (n + Z.of_nat (length (w :: ws)))%Z
      with ((n + 1) + Z.of_nat (length ws))%Z by (simpl length; lia).
    apply IH; try assumption; [lia|].
    intros l' Hl'. destruct (Z.eqb_spec (n + 1) 0); [lia|].
    apply (poll_cycle_seen h w st feed n); assumption.
Qed.

(** X14: a feed with distinct identifiers that is fetched the same in
    every cycle, from the start of the engine: after [n] cycles every
    entry of the feed is tracked with count [n], whatever the trigger
    handling does. *)
Theorem unchanged_feed_counts (h : handler) (ws : list world)
    (feed : list lifelog) (l : lifelog) :
  ws <> [] ->
  Forall (fun w => http_get w = inr feed) ws ->
  NoDup (lifelog_id <$> feed) ->
  l ∈ feed ->
  last_lifelogs (run_cycles h ws initial_state).2 !! lifelog_id l
  = Some (seen l (Z.of_nat (length ws))).
Proof.
  intros Hne Hws Hnd Hl.
  pose proof (run_cycles_seen h feed ws initial_state 0 ltac:(lia) Hws Hnd)
    as Hrun.
  rewrite Hrun; [|intros; reflexivity|assumption].
  destruct ws; [contradiction|]. reflexivity.
Qed.

Lemma classify_fold_counts ls : forall m u ids,
  map_Forall (fun _ r => 1 <= stable_count r)%Z m ->
  map_Forall (fun _ r => 1 <= stable_count r)%Z
    (foldl classify_step (m, u, ids) ls).1.1.
Proof.
  induction ls as [|x ls IH]; intros m u ids Hm; [exact Hm|].
  rewrite classify_fold_cons.
  pose proof (classify_step_record m u ids x) as E.
  destruct (classify_step (m, u, ids) x) as [[m' u'] ids'].
  cbn [fst] in E. subst m'. apply IH.
  apply map_Forall_insert_2; [|assumption].
  unfold next_record. destruct (m !! lifelog_id x) as [prev|] eqn:Ep;
    [|simpl; lia].
  destruct (bool_decide _ || bool_decide _); simpl; [lia|].
  specialize (Hm _ _ Ep). simpl in Hm. lia.
Qed.

Lemma tracked_after_counts w st :
  map_Forall (fun _ r => 1 <= stable_count r)%Z (last_lifelogs st) ->
  map_Forall (fun _ r => 1 <= stable_count r)%Z (tracked_after w st).
Proof.
  intros Hm. unfold tracked_after. destruct (http_get w) as [e|feed];
    [assumption|].
  pose proof (classify_fold_counts (reverse feed) (last_lifelogs st) None ∅ Hm)
    as Hc.
  fold (classify (reverse feed) (last_lifelogs st)) in Hc.
  destruct (classify (reverse feed) (last_lifelogs st)) as [[ll mru] ids].
  cbn [fst] in Hc. unfold cleanup.
  intros k r Hk. apply map_lookup_filter_Some in Hk as [Hk _].
  exact (Hc k r Hk).
Qed.

Lemma run_cycles_counts h ws : forall st,
  map_Forall (fun _ r => 1 <= stable_count r)%Z (last_lifelogs st) ->
  map_Forall (fun _ r => 1 <= stable_count r)%Z
    (last_lifelogs (run_cycles h ws st).2).
Proof.
  induction ws as [|w ws IH]; intros st Hm; [exact Hm|].
  rewrite run_cycles_cons. cbn [snd]. apply IH.
  rewrite poll_cycle_tracked. apply tracked_after_counts. assumption.
Qed.

(** X15: every tracked entry has a count of at least one, at every point
    of every run from the start of the engine and whatever the trigger
    handling does. *)
Theorem stable_count_at_least_one (h : handler) (ws : list world) :
  map_Forall (fun _ r => 1 <= stable_count r)%Z
    (last_lifelogs (run_cycles h ws initial_state).2).
Proof. apply run_cycles_counts. apply map_Forall_empty. Qed.

(** ** The watermark over a run *)

Lemma poll_cycle_watermark_kept h w st :
  is_Some (last_stable_end_time st) ->
  is_Some (last_stable_end_time (poll_cycle h w st).2).
Proof.
  intros Hs. unfold poll_cycle, try_body.
  destruct (fetch_lifelogs w (Some (today_est_date w))
              (last_stable_end_time st)) as [t0 [e|lifelogs]];
    [exact Hs|].
  destruct (classify lifelogs (last_lifelogs st)) as [[ll mru] ids].
  assert (Hu : is_Some (update_stable (cleanup ll ids)
                          (last_stable_end_time st)).2).
  { unfold update_stable. destruct (stable_lifelogs (cleanup ll ids));
      [exact Hs|]. cbn [snd]. eauto. }
  destruct (update_stable (cleanup ll ids) (last_stable_end_time st))
    as [t2 wm].
  destruct mru as [u|].
  - destruct (process_update h w (today_est_date w) u
                (processed_gemini_triggers st)) as [[t P] [e|[]]];
      [exact Hs|exact Hu].
  - exact Hu.
Qed.

(** X16: once the watermark is set it is never unset: a cycle either
    keeps it or replaces it by the end time of a stable entry, whatever
    the feed and the trigger handling do. *)
Theorem watermark_never_unset (h : handler) (ws : list world)
    (st : engine_state) :
  is_Some (last_stable_end_time st) ->
  is_Some (last_stable_end_time (run_cycles h ws st).2).
Proof.
  revert st. induction ws as [|w ws IH]; intros st Hs; [exact Hs|].
  rewrite run_cycles_cons. cbn [snd]. apply IH.
  apply poll_cycle_watermark_kept. assumption.
Qed.

(** A fetch of entries that are all tracked with their content and end
    time selects no update. *)
Lemma classify_unchanged ls : forall m u ids,
  NoDup (lifelog_id <$> ls) ->
  (forall l, l ∈ ls -> exists c, m !! lifelog_id l = Some (seen l c)) ->
  (foldl classify_step (m, u, ids) ls).1.2 = u.
Proof.
  induction ls as [|x ls IH]; intros m u ids Hnd Hm; [reflexivity|].
  rewrite classify_fold_cons.
  rewrite fmap_cons in Hnd. apply NoDup_cons in Hnd as [Hx Hnd].
  destruct (Hm x) as [c Hc]; [apply list_elem_of_here|].
  pose proof (classify_step_record m u ids x) as Er.
  assert (Eu : (classify_step (m, u, ids) x).1.2 = u).
  { unfold classify_step. rewrite Hc. unfold seen. cbn [content tracked_endTime].
    rewrite !bool_decide_eq_false_2 by (intros Hne; apply Hne; reflexivity).
    reflexivity. }
  destruct (classify_step (m, u, ids) x) as [[m' u'] ids'].
  cbn [fst snd] in Er, Eu. subst m' u'.
  apply IH; [assumption|]. intros l Hl.
  destruct (Hm l) as [c' Hc']; [apply list_elem_of_further; assumption|].
  exists c'. rewrite lookup_insert_ne; [assumption|].
  intros E. apply Hx. rewrite E. apply list_elem_of_fmap. eauto.
Qed.

(** The state of a feed that has been fetched unchanged [n] times.  The
    first cycle may be left by the transcript write; the later ones
    select no update and run to their end. *)
Lemma unchanged_feed_step w st feed (n : Z) :
  (0 <= n)%Z ->
  http_get w = inr feed ->
  NoDup (lifelog_id <$> feed) ->
  feed <> [] ->
  let inv (n : Z) (st : engine_state) :=
    (forall l, l ∈ feed ->
       last_lifelogs st !! lifelog_id l
       = if (n =? 0)%Z then None else Some (seen l n)) /\
    ((n < stable_polls_required)%Z -> last_stable_end_time st = None) /\
    ((stable_polls_required <= n)%Z ->
     exists l, l ∈ feed /\ last_stable_end_time st = Some (endTime l) /\
               forall l', l' ∈ feed ->
                 str_ltb (endTime l) (endTime l') = false) in
  inv n st -> inv (n + 1)%Z (poll_cycle process_gemini_trigger w st).2.
Proof.
  intros Hn H Hnd Hne inv (Hlk & Hlow & Hhigh).
  assert (Hseen : forall l, l ∈ feed ->
            last_lifelogs (poll_cycle process_gemini_trigger w st).2
              !! lifelog_id l = Some (seen l (n + 1))).
  { apply (poll_cycle_seen _ w st feed n); assumption. }
  assert (Hdom : forall k v,
            last_lifelogs (poll_cycle process_gemini_trigger w st).2 !! k
            = Some v ->
            exists l, l ∈ feed /\ v = seen l (n + 1)).
  { intros k v Hk.
    assert (Hin : k ∈ dom (last_lifelogs
                             (poll_cycle process_gemini_trigger w st).2))
      by (apply elem_of_dom; eauto).
    rewrite (poll_cycle_tracked_after_fetch _ w st feed
               process_gemini_trigger_no_raise H),
      cleanup_classify_dom in Hin.
    apply elem_of_list_to_set, list_elem_of_fmap in Hin as (l & -> & Hl).
    rewrite elem_of_reverse in Hl. exists l. split; [assumption|].
    rewrite (Hseen l Hl) in Hk. congruence. }
  assert (Hwm : last_stable_end_time (poll_cycle process_gemini_trigger w st).2
                = (update_stable
                     (last_lifelogs (poll_cycle process_gemini_trigger w st).2)
                     (last_stable_end_time st)).2
                \/ (n = 0%Z /\
                    last_stable_end_time
                      (poll_cycle process_gemini_trigger w st).2
                    = last_stable_end_time st)).
  { rewrite (poll_cycle_after_fetch _ w st feed
               process_gemini_trigger_no_raise H).
    destruct (Z.eqb_spec n 0) as [->|Hn0].
    - destruct (classify _ _).1.2; destruct (log_write w);
        auto using completed_state_watermark, interrupted_state_watermark.
    - left.
      assert (Hu : (classify (reverse feed) (last_lifelogs st)).1.2 = None).
      { apply classify_unchanged.
        - rewrite fmap_reverse, reverse_Permutation. assumption.
        - intros l Hl. rewrite elem_of_reverse in Hl. exists n.
          rewrite (Hlk l Hl). destruct (Z.eqb_spec n 0); [lia|reflexivity]. }
      rewrite Hu. apply completed_state_watermark. }
  destruct (update_stable_spec
              (last_lifelogs (poll_cycle process_gemini_trigger w st).2)
              (last_stable_end_time st)) as [Hstable Hnone].
  split; [|split].
  - intros l Hl. destruct (Z.eqb_spec (n + 1) 0); [lia|]. auto.
  - intros Hlt. destruct Hwm as [Hwm|[_ Hwm]]; rewrite Hwm;
      [|apply Hlow; lia].
    rewrite Hnone; [apply Hlow; lia|].
    intros (k & v & Hk & Hv). destruct (Hdom k v Hk) as (l & _ & ->).
    simpl in Hv. lia.
  - intros Hge.
    destruct Hwm as [Hwm|[Hn0 _]];
      [|unfold stable_polls_required in Hge; lia].
    destruct feed as [|l0 feed'] eqn:Ef; [contradiction|].
    rewrite <- Ef in *.
    assert (Hl0 : l0 ∈ feed) by (rewrite Ef; apply list_elem_of_here).
    destruct Hstable as (e & He & (k & v & Hk & Hv & Hev) & Hmax).
    { exists (lifelog_id l0), (seen l0 (n + 1)). split; [auto|assumption]. }
    destruct (Hdom k v Hk) as (l & Hl & ->). exists l.
    split; [assumption|]. split; [rewrite Hwm, He, <- Hev; reflexivity|].
    intros l' Hl'. rewrite <- Hev in Hmax.
    apply (Hmax (lifelog_id l') (seen l' (n + 1))); [auto|assumption].
Qed.

Lemma unchanged_feed_run feed ws : forall st (n : Z),
  (0 <= n)%Z ->
  Forall (fun w => http_get w = inr feed) ws ->
  NoDup (lifelog_id <$> feed) ->
  feed <> [] ->
  (forall l, l ∈ feed ->
     last_lifelogs st !! lifelog_id l
     = if (n =? 0)%Z then None else Some (seen l n)) ->
  ((n < stable_polls_required)%Z -> last_stable_end_time st = None) ->
  ((stable_polls_required <= n)%Z ->
   exists l, l ∈ feed /\ last_stable_end_time st = Some (endTime l) /\
             forall l', l' ∈ feed -> str_ltb (endTime l) (endTime l') = false) ->
  let m := (n + Z.of_nat (length ws))%Z in
  ((m < stable_polls_required)%Z ->
   last_stable_end_time (run ws st).2 = None) /\
  ((stable_polls_required <= m)%Z ->
   exists l, l ∈ feed /\
             last_stable_end_time (run ws st).2 = Some (endTime l) /\
             forall l', l' ∈ feed -> str_ltb (endTime l) (endTime l') = false).
Proof.
  unfold run.
  induction ws as [|w ws IH]; intros st n Hn Hws Hnd Hne Hlk Hlow Hhigh.
  - simpl. rewrite Z.add_0_r. auto.
  - apply Forall_cons in Hws as [Hw Hws].
    rewrite run_cycles_cons. cbn [snd].
    destruct (unchanged_feed_step w st feed n Hn Hw Hnd Hne
                (conj Hlk (conj Hlow Hhigh))) as (Hlk' & Hlow' & Hhigh').
    replace (n + Z.of_nat (length (w :: ws)))%Z
      with ((n + 1) + Z.of_nat (length ws))%Z by (simpl length; lia).
    apply (IH _ (n + 1)%Z); try assumption. lia.
Qed.

(** X17: a feed with distinct identifiers that is fetched the same in
    every cycle, from the start of the engine: the watermark is unset
    after the first and after the second cycle, and from the third cycle
    on it is the largest end time of the feed. *)
Theorem watermark_set_at_third_poll (ws : list world) (feed : list lifelog) :
  Forall (fun w => http_get w = inr feed) ws ->
  NoDup (lifelog_id <$> feed) ->
  feed <> [] ->
  (length ws < 3 -> last_stable_end_time (run ws initial_state).2 = None) /\
  (3 <= length ws ->
   exists l, l ∈ feed /\
             last_stable_end_time (run ws initial_state).2
             = Some (endTime l) /\
             forall l', l' ∈ feed -> str_ltb (endTime l) (endTime l') = false).
Proof.
  intros Hws Hnd Hne.
  destruct (unchanged_feed_run feed ws initial_state 0 ltac:(lia) Hws Hnd Hne)
    as [Hlow Hhigh].
  - intros; reflexivity.
  - intros; reflexivity.
  - unfold stable_polls_required. lia.
  - unfold stable_polls_required in *. split.
    + intros Hlt. apply Hlow. lia.
    + intros Hge. apply Hhigh. lia.
Qed.


(** ** The identifier of a trigger *)

Lemma split_at_first (c : N) (a a' b b' : pystr) :
  c ∉ a -> c ∉ a' -> a ++ c :: b = a' ++ c :: b' -> a = a' /\ b = b'.
Proof.
  revert a'. induction a as [|x a IH]; intros [|x' a'] Ha Ha' E; simpl in E.
  - injection E as ->. auto.
  - injection E as <- _. exfalso. apply Ha'. apply list_elem_of_here.
  - injection E as -> _. exfalso. apply Ha. apply list_elem_of_here.
  - injection E as -> E. rewrite not_elem_of_cons in Ha, Ha'.
    destruct (IH a') as [-> ->]; tauto.
Qed.

Lemma end_time_and_flag (e e' : pystr) (b b' : bool) :
  e ++ pystr_of ":" ++ fmt_bool b = e' ++ pystr_of ":" ++ fmt_bool b' ->
  e = e' /\ b = b'.
Proof.
  assert (Ht : forall x : pystr,
            x ++ pystr_of ":" ++ fmt_bool true
            = (x ++ pystr_of ":") ++ pystr_of "True")
    by (intros; rewrite <- app_assoc; reflexivity).
  assert (Hf : forall x : pystr,
            x ++ pystr_of ":" ++ fmt_bool false
            = (x ++ pystr_of ":F") ++ pystr_of "alse")
    by (intros; rewrite <- app_assoc; reflexivity).
  destruct b, b'; rewrite ?Ht, ?Hf; intros E;
    apply app_inj_2 in E as [E1 E2]; try reflexivity; try discriminate E2.
  - apply app_inj_2 in E1 as [-> _]; [auto|reflexivity].
  - apply app_inj_2 in E1 as [-> _]; [auto|reflexivity].
Qed.

(** X18: the identifier under which a trigger is remembered determines
    the entry, its end time and the trigger flag, as long as entry
    identifiers hold no colon: two different triggers never share an
    identifier, so remembering one never suppresses another. *)
Theorem trigger_id_injective (k1 k2 : dedup_key) :
  58%N ∉ k1.1.1 -> 58%N ∉ k2.1.1 ->
  key_id k1 = key_id k2 <-> k1 = k2.
Proof.
  intros H1 H2. split; [|intros ->; reflexivity].
  destruct k1 as [[i1 e1] b1], k2 as [[i2 e2] b2]. cbn [fst snd] in *.
  unfold key_id, trigger_id_of. cbn [fst snd]. intros E.
  change (pystr_of ":" ++ ?x) with (58%N :: x) in E.
  apply split_at_first in E as [-> E]; try assumption.
  change (58%N :: ?x) with (pystr_of ":" ++ x) in E.
  apply end_time_and_flag in E as [-> ->]. reflexivity.
Qed.

(** ** The backoff through an outage *)

Lemma backoff_double_pow (b k : Z) :
  (0 <= k)%Z ->
  Z.min (Z.min (b * 2) backoff_max * 2 ^ k) backoff_max
  = Z.min (b * 2 ^ (k + 1)) backoff_max.
Proof.
  intros Hk. unfold backoff_max. rewrite Z.pow_add_r by lia.
  change (2 ^ 1)%Z with 2%Z.
  assert (Hp : (0 < 2 ^ k)%Z) by (apply Z.pow_pos_nonneg; lia).
  set (p := (2 ^ k)%Z) in *.
  destruct (Z.min_spec (b * 2) 300) as [[? ->]|[? ->]];
    destruct (Z.min_spec (b * (p * 2)) 300) as [[? ->]|[? ->]];
    try destruct (Z.min_spec (b * 2 * p) 300) as [[? ->]|[? ->]];
    try destruct (Z.min_spec (300 * p) 300) as [[? ->]|[? ->]]; nia.
Qed.

(** X19: through an outage, a row of cycles whose fetch fails, the
    engine changes nothing but the backoff: tracked entries, watermark and
    dedup set stay as they were, the i-th failed cycle sleeps for
    min(backoff * 2^i, 300) seconds, and after n failures the backoff is
    min(backoff * 2^n, 300). *)
Theorem backoff_through_outage (h : handler) (ws : list world)
    (st : engine_state) :
  Forall (fun w => exists e, http_get w = inl e) ws ->
  (backoff st <= backoff_max)%Z ->
  (run_cycles h ws st).2
  = {| last_lifelogs := last_lifelogs st;
       last_stable_end_time := last_stable_end_time st;
       backoff := Z.min (backoff st * 2 ^ Z.of_nat (length ws)) backoff_max;
       processed_gemini_triggers := processed_gemini_triggers st |} /\
  sleeps (run_cycles h ws st).1
  = (fun i => Z.min (backoff st * 2 ^ Z.of_nat i) backoff_max)
    <$> seq 0 (length ws).
Proof.
  revert st. induction ws as [|w ws IH]; intros st Hws Hb.
  - simpl. rewrite Z.mul_1_r, Z.min_l by assumption.
    destruct st; auto.
  - apply Forall_cons in Hws as [[e He] Hws].
    rewrite run_cycles_cons. cbn [fst snd].
    destruct (poll_cycle_fetch_error h w st e He) as (-> & Hsl & _).
    rewrite sleeps_app, Hsl.
    destruct (IH (backed_off_state st) Hws) as [-> ->].
    { unfold backed_off_state. cbn [backoff]. lia. }
    unfold backed_off_state. cbn [last_lifelogs last_stable_end_time backoff
                                  processed_gemini_triggers].
    split.
    + f_equal. rewrite backoff_double_pow by lia. f_equal. f_equal. f_equal.
      simpl length. lia.
    + simpl length. cbn [seq fmap list_fmap app].
      f_equal.
      * change (Z.of_nat 0) with 0%Z. rewrite Z.mul_1_r, Z.min_l; auto.
      * rewrite <- fmap_S_seq, <- list_fmap_compose.
        apply list_fmap_ext. intros i x _. cbn.
        rewrite backoff_double_pow by lia. f_equal. f_equal. f_equal. lia.
Qed.


(** ** The trigger of a cycle *)

Lemma poll_cycle_invoked h w st feed :
  quiet h ->
  http_get w = inr feed ->
  invoked_keys (poll_cycle h w st).1
  = match (classify (reverse feed) (last_lifelogs st)).1.2 with
    | Some (l, _, _, has) =>
        if has && bool_decide
                    (trigger_id_of (lifelog_id l) (endTime l) has
                       ∉ processed_gemini_triggers st)
        then [dedup_key_of l] else []
    | None => []
    end.
Proof.
  intros Hq H. unfold poll_cycle, try_body.
  rewrite (fetch_lifelogs_ok _ _ _ _ H).
  destruct (classify (reverse feed) (last_lifelogs st)) as [[ll mru] ids].
  cbn [fst snd].
  destruct (update_stable_trace (cleanup ll ids) (last_stable_end_time st))
    as [_ E3].
  destruct mru as [[[[l p] pc] has]|].
  - pose proof (process_update_invoked h w (today_est_date w) l p pc has
                  (processed_gemini_triggers st) Hq) as E1.
    destruct (process_update h w (today_est_date w) (l, p, pc, has)
                (processed_gemini_triggers st)) as [[t P] [e|[]]];
      cbn [fst snd] in E1.
    + cbn [fst snd]. rewrite !invoked_keys_app, E1.
      change (invoked_keys [HttpGet _ _]) with (@nil dedup_key).
      change (invoked_keys [Print _; Print _; Sleep _])
        with (@nil dedup_key).
      rewrite !app_nil_r. reflexivity.
    + destruct (update_stable (cleanup ll ids) (last_stable_end_time st))
        as [t2 wm].
      cbn [fst snd] in *. rewrite !invoked_keys_app, E1, E3.
      change (invoked_keys [HttpGet _ _]) with (@nil dedup_key).
      change (invoked_keys [Sleep _]) with (@nil dedup_key).
      rewrite !app_nil_r. reflexivity.
  - destruct (update_stable (cleanup ll ids) (last_stable_end_time st))
      as [t2 wm].
    cbn [fst snd] in *. rewrite !invoked_keys_app, E3. reflexivity.
Qed.

(** X20: a cycle calls the trigger handling at most once, and only for
    the entry whose update it writes to the transcript; that entry holds
    a trigger.  A trigger in any other entry of the fetch is not handled
    in this cycle. *)
Theorem handled_trigger_is_logged_entry (w : world) (st : engine_state) :
  let t := (poll_cycle process_gemini_trigger w st).1 in
  invoked_keys t = [] \/
  exists l prev,
    invoked_keys t = [dedup_key_of l] /\
    detect_gemini_trigger (Some (get_or (markdown l) [])) = true /\
    logged t = [(prev,
                 highlight_gemini_content (Some (get_or (markdown l) [])),
                 endTime l)].
Proof.
  cbv zeta. destruct (http_get w) as [e|feed] eqn:H.
  - left. apply (poll_cycle_fetch_error _ w st e H).
  - rewrite (poll_cycle_invoked _ w st feed process_gemini_trigger_quiet H),
      (poll_cycle_logged _ w st feed process_gemini_trigger_no_raise
         process_gemini_trigger_no_log H).
    pose proof (classify_update_ok (reverse feed) (last_lifelogs st)) as Hok.
    destruct ((classify (reverse feed) (last_lifelogs st)).1.2)
      as [[[[l p] pc] has]|]; [|left; reflexivity].
    destruct Hok as [Hhas ->].
    destruct (has && bool_decide _) eqn:Hc; [|left; reflexivity].
    right. exists l, p. apply andb_true_iff in Hc as [-> _].
    split; [reflexivity|]. split; [symmetry; assumption|reflexivity].
Qed.

End Engine.

(** * The specification's examples, on concrete inputs *)

Example detect_said_hi :
  detect_gemini_trigger small_db (Some (pystr_of "Gemini said hi")) = true.
Proof. vm_compute. reflexivity. Qed.

Example detect_geminists :
  detect_gemini_trigger small_db (Some (pystr_of "geminists unite")) = false.
Proof. vm_compute. reflexivity. Qed.

Example detect_underscore :
  detect_gemini_trigger small_db (Some (pystr_of "ask gemini_cli now")) = false.
Proof. vm_compute. reflexivity. Qed.

Example highlight_ask :
  highlight_gemini_content small_db (Some (pystr_of "ask Gemini now"))
  = Some (pystr_of "ask **Gemini** now").
Proof. vm_compute. reflexivity. Qed.

Example highlight_no_mention :
  highlight_gemini_content small_db (Some (pystr_of "no mention"))
  = Some (pystr_of "no mention").
Proof. vm_compute. reflexivity. Qed.

(** The end-to-end scenario: entry A is fetched unchanged three times and
    then with new content that names the keyword. *)
Example scenario_trace :
  let a1 := entry "A" "2025-01-01T10:00:00Z" "hello" in
  let a2 := entry "A" "2025-01-01T10:05:00Z" "hello Gemini" in
  let w1 := quiet_world (inr [a1]) in
  let w2 := quiet_world (inr [a2]) in
  last_stable_end_time (run small_db [w1; w1] initial_state).2 = None /\
  last_stable_end_time (run small_db [w1; w1; w1] initial_state).2 = Some T1 /\
  invoked_keys small_db (run small_db [w1; w1; w1; w2; w2; w2] initial_state).1
  = [(pystr_of "A", T2, true)].
Proof. vm_compute. repeat split. Qed.

(** * Departures from the specification *)

(** C9 (as stated it fails): highlighting the highlighted text wraps the
    keyword a second time. *)
Lemma highlight_rewraps :
  highlight_gemini_content small_db (Some (pystr_of "ask Gemini now"))
  = Some (pystr_of "ask **Gemini** now") /\
  highlight_gemini_content small_db (Some (pystr_of "ask **Gemini** now"))
  = Some (pystr_of "ask ****Gemini**** now") /\
  highlight_gemini_content small_db
    (highlight_gemini_content small_db (Some (pystr_of "ask Gemini now")))
  <> highlight_gemini_content small_db (Some (pystr_of "ask Gemini now")).
Proof. vm_compute. repeat split. discriminate. Qed.



(** A transcript write that raises: entry A is fetched unchanged three
    times, and in the third cycle a new entry X comes with it whose
    write raises.  The cycle is left through the [except] clause: A has
    count 3, the watermark is still unset, and the backoff has doubled
    after a successful fetch. *)
Example failed_write_skips_watermark_and_reset :
  let a := entry "A" "2025-01-01T10:00:00Z" "hello" in
  let x := entry "X" "2025-01-01T10:05:00Z" "new" in
  let w := quiet_world (inr [a]) in
  let fw := failing_write_world (inr [x; a]) in
  let st := (run small_db [w; w; fw] initial_state).2 in
  stable_count <$> last_lifelogs st !! pystr_of "A" = Some 3%Z /\
  last_stable_end_time st = None /\
  backoff st = 10%Z /\
  sleeps (run small_db [w; w; fw] initial_state).1 = [5; 5; 5]%Z.
Proof. vm_compute. repeat split. Qed.

(** The same key comes back as a candidate update and is not handled
    again. *)
Example dedup_on_recurrence :
  let a1 := entry "A" "2025-01-01T10:00:00Z" "hello" in
  let a2 := entry "A" "2025-01-01T10:05:00Z" "hello Gemini" in
  let w1 := quiet_world (inr [a1]) in
  let w2 := quiet_world (inr [a2]) in
  invoked_keys small_db (run small_db [w1; w2; w1; w2] initial_state).1
  = [(pystr_of "A", T2, true)].
Proof. vm_compute. reflexivity. Qed.

(** * The theorems at concrete inputs *)


Lemma tracked_ids_are_fetched_ids_witness :
  let a := entry "A" "2025-01-01T10:00:00Z" "hello" in
  let b := entry "B" "2025-01-01T10:05:00Z" "world" in
  let st := (run small_db [quiet_world (inr [a])] initial_state).2 in
  let st' := (poll_cycle small_db (process_gemini_trigger small_db)
                (quiet_world (inr [b])) st).2 in
  dom (last_lifelogs st') = list_to_set (lifelog_id <$> [b]) /\
  last_lifelogs st' !! pystr_of "A" = None.
Proof.
  intros a b st st'.
  destruct (tracked_ids_are_fetched_ids small_db (quiet_world (inr [b])) st
              [b] eq_refl) as [H1 H2].
  split; [exact H1|].
  apply (H2 (pystr_of "A")).
  apply (bool_decide_eq_true_1 _). vm_compute. reflexivity.
Defined.




Lemma trigger_handled_once_per_key_witness :
  let a := entry "A" "2025-01-01T10:00:00Z" "hello Gemini" in
  let b := entry "A" "2025-01-01T10:00:00Z" "Gemini again" in
  let st := (run small_db [quiet_world (inr [a])] initial_state).2 in
  let ws := [quiet_world (inr [b]); quiet_world (inr [a])] in
  NoDup (invoked_keys small_db (run small_db ws st).1) /\
  dedup_key_of small_db a ∉ invoked_keys small_db (run small_db ws st).1.
Proof.
  intros a b st ws.
  destruct (trigger_handled_once_per_key small_db ws st) as (H1 & H2 & _).
  split; [exact H1|]. apply H2.
  apply (bool_decide_eq_true_1 _). vm_compute. reflexivity.
Defined.

Lemma trigger_recorded_before_handling_witness :
  let a := entry "A" "2025-01-01T10:00:00Z" "hello Gemini" in
  let w := quiet_world (inr [a]) in
  let st' := (poll_cycle small_db failing_handler w initial_state).2 in
  key_id (dedup_key_of small_db a) ∈ processed_gemini_triggers st' /\
  (forall ws, dedup_key_of small_db a
              ∉ invoked_keys small_db (run_cycles small_db failing_handler ws st').1) /\
  backoff st' = 10%Z.
Proof.
  intros a w st'.
  destruct (trigger_recorded_before_handling small_db failing_handler w
              initial_state (dedup_key_of small_db a)) as [H1 H2].
  - intros w0 l pc. reflexivity.
  - apply (bool_decide_eq_true_1 _). vm_compute. reflexivity.
  - split; [exact H1|]. split; [exact H2|]. vm_compute. reflexivity.
Defined.

(** * The further properties at concrete inputs *)

(** A collision of trigger identifiers when an entry identifier holds a
    colon. *)
Example trigger_id_collision :
  key_id (pystr_of "a:b", pystr_of "c", true)
  = key_id (pystr_of "a", pystr_of "b:c", true).
Proof. vm_compute. reflexivity. Qed.

(** A transcript of one long line and a short one: only the short line
    is handed over. *)
Lemma transcript_context_truncation_witness :
  let full_content :=
    replicate (Z.to_nat 96000) 97%N ++ [10%N] ++ replicate 10 98%N in
  (exists dropped kept,
     full_content = dropped ++ kept /\
     get_current_transcript_context (pystr_of "2025-01-01")
       (Contents full_content)
     = pystr_of "[CONTEXT TRUNCATED - SHOWING MOST RECENT "
       ++ fmt_int (Z.of_nat (length kept)) ++ pystr_of " CHARS]"
       ++ nl ++ nl ++ kept /\
     (Z.of_nat (length kept) <= max_context_chars - 100)%Z) /\
  get_current_transcript_context (pystr_of "2025-01-01")
    (Contents full_content)
  = pystr_of "[CONTEXT TRUNCATED - SHOWING MOST RECENT 10 CHARS]"
    ++ nl ++ nl ++ replicate 10 98%N.
Proof.
  intros full_content. split; [|vm_compute; reflexivity].
  destruct (transcript_context_truncation (pystr_of "2025-01-01")
              full_content) as (d & k & H1 & H2 & H3 & _).
  - vm_compute. reflexivity.
  - exists d, k. auto.
Defined.

Lemma notification_within_limit_witness :
  let response := replicate (Z.to_nat 5000) 97%N in
  exists message,
    posts (send_agent_response_notification (quiet_world (inr [])) response
             (Some default_title)).1
    = [(message, pystr_of "Gemini AI Agent Response")] /\
    (Z.of_nat (length message) <= 4000)%Z.
Proof.
  intros response.
  destruct (notification_within_limit (quiet_world (inr [])) response
              (Some default_title)) as (m & H1 & H2 & _).
  - vm_compute. lia.
  - exists m. auto.
Defined.

Lemma status_line_always_no_witness :
  let a := entry "A" "2025-01-01T10:00:00Z" "hello Gemini" in
  let u : update :=
    (a, [], highlight_gemini_content small_db (Some (pystr_of "hello Gemini")),
     true) in
  let r := process_update (process_gemini_trigger small_db)
             (quiet_world (inr [a])) (pystr_of "2025-01-01") u ∅ in
  invoked_keys small_db r.1.1 = [dedup_key_of small_db a] /\
  last r.1.1 = Some (Print (status_line (pystr_of "2025-01-01") "No")).
Proof.
  intros a u r. split; [vm_compute; reflexivity|].
  apply status_line_always_no. vm_compute. reflexivity.
Defined.


Lemma tracked_record_after_fetch_witness :
  let a := entry "A" "2025-01-01T10:00:00Z" "hello Gemini" in
  let w := quiet_world (inr [a]) in
  let st := (poll_cycle small_db failing_handler w initial_state).2 in
  last_lifelogs (poll_cycle small_db failing_handler w st).2 !! pystr_of "A"
  = Some (seen a 2).
Proof.
  intros a w st.
  destruct (tracked_record_after_fetch small_db failing_handler w st [a] a
              eq_refl) as (_ & H & _).
  - apply NoDup_singleton.
  - apply list_elem_of_here.
  - apply (H (seen a 1)); vm_compute; reflexivity.
Defined.

Lemma unchanged_feed_counts_witness :
  let a := entry "A" "2025-01-01T10:00:00Z" "hello Gemini" in
  let b := entry "B" "2025-01-01T10:05:00Z" "world" in
  let w := quiet_world (inr [a; b]) in
  last_lifelogs (run_cycles small_db failing_handler [w; w; w]
                   initial_state).2 !! pystr_of "B"
  = Some (seen b 3).
Proof.
  intros a b w.
  apply (unchanged_feed_counts small_db failing_handler [w; w; w] [a; b] b).
  - discriminate.
  - repeat constructor.
  - apply (bool_decide_eq_true_1 _). vm_compute. reflexivity.
  - apply list_elem_of_further, list_elem_of_here.
Defined.

Lemma watermark_never_unset_witness :
  let a1 := entry "A" "2025-01-01T10:00:00Z" "hello" in
  let a2 := entry "A" "2025-01-01T10:05:00Z" "hello Gemini" in
  let w1 := quiet_world (inr [a1]) in
  let w2 := quiet_world (inr [a2]) in
  let st := (run small_db [w1; w1; w1] initial_state).2 in
  is_Some (last_stable_end_time
             (run_cycles small_db failing_handler [w2; quiet_world (inr [])]
                st).2) /\
  last_stable_end_time st = Some T1.
Proof.
  intros a1 a2 w1 w2 st. split; [|vm_compute; reflexivity].
  apply watermark_never_unset. exists T1. vm_compute. reflexivity.
Defined.

Lemma watermark_set_at_third_poll_witness :
  let a := entry "A" "2025-01-01T10:00:00Z" "hello" in
  let b := entry "B" "2025-01-01T10:05:00Z" "world" in
  let w := quiet_world (inr [a; b]) in
  last_stable_end_time (run small_db [w; w] initial_state).2 = None /\
  (exists l, l ∈ [a; b] /\
             last_stable_end_time (run small_db [w; w; w] initial_state).2
             = Some (endTime l) /\
             forall l', l' ∈ [a; b] ->
               str_ltb (endTime l) (endTime l') = false) /\
  last_stable_end_time (run small_db [w; w; w] initial_state).2 = Some T2.
Proof.
  intros a b w.
  assert (Hnd : NoDup (lifelog_id <$> [a; b]))
    by (apply (bool_decide_eq_true_1 _); vm_compute; reflexivity).
  split; [|split; [|vm_compute; reflexivity]].
  - apply (watermark_set_at_third_poll small_db [w; w] [a; b]);
      [repeat constructor|assumption|discriminate|simpl; lia].
  - apply (watermark_set_at_third_poll small_db [w; w; w] [a; b]);
      [repeat constructor|assumption|discriminate|simpl; lia].
Defined.

Lemma trigger_id_injective_witness :
  key_id (pystr_of "A", T1, true) = key_id (pystr_of "A", T2, true)
  <-> (pystr_of "A", T1, true) = (pystr_of "A", T2, true).
Proof.
  apply trigger_id_injective;
    apply (bool_decide_eq_true_1 _); vm_compute; reflexivity.
Defined.

Lemma backoff_through_outage_witness :
  let failing := quiet_world (inl (RequestException (pystr_of "503"))) in
  let ws := [failing; failing; failing] in
  backoff (run_cycles small_db failing_handler ws initial_state).2 = 40%Z /\
  sleeps (run_cycles small_db failing_handler ws initial_state).1
  = [5; 10; 20]%Z.
Proof.
  intros failing ws.
  destruct (backoff_through_outage small_db failing_handler ws initial_state)
    as [H1 H2].
  - repeat constructor; eexists; reflexivity.
  - vm_compute. discriminate.
  - rewrite H1, H2. split; reflexivity.
Defined.
